(** * Temporal media fragments of hls.js: the parser and the boundary enforcer

    A shallow embedding of [src/utils/media-fragment-parser.ts]
    ([parseMediaFragment] and [parseNptTime]) together with the part of the
    JavaScript runtime the two functions call: strings as sequences of
    UTF-16 code units, [indexOf], [substring], [startsWith], [split], [trim],
    the two regular expressions, IEEE 754 binary64 numbers and [parseFloat]. *)

From Stdlib Require Import Ascii String List NArith ZArith Bool Lia.
From Stdlib Require Import Floats.SpecFloat.
From Equations Require Import Equations.
Import ListNotations.

(** ** JavaScript strings *)

Module JS.

(** A string value is a finite sequence of 16-bit code units. *)
Definition jsstring := list N.

(** [js "..."] is the string literal with the given ASCII text. *)
Definition js (s : string) : jsstring := map N_of_ascii (list_ascii_of_string s).

(** [ch "c"] is the code unit of an ASCII character. *)
Definition ch (c : ascii) : N := N_of_ascii c.

Arguments js : simpl never.
Arguments ch : simpl never.

(** WhiteSpace and LineTerminator code units, as [String.prototype.trim] and
    [parseFloat] strip them: TAB, LF, VT, FF, CR, SP, NBSP, U+1680,
    U+2000..U+200A, U+2028, U+2029, U+202F, U+205F, U+3000 and U+FEFF. *)
Definition isWhiteSpace (c : N) : bool :=
  ((9 <=? c) && (c <=? 13) || (c =? 32) || (c =? 160) || (c =? 5760)
   || (8192 <=? c) && (c <=? 8202) || (c =? 8232) || (c =? 8233)
   || (c =? 8239) || (c =? 8287) || (c =? 12288) || (c =? 65279))%N.

Fixpoint trimStart (s : jsstring) : jsstring :=
  match s with
  | c :: s' => if isWhiteSpace c then trimStart s' else s
  | [] => []
  end.

Definition trimEnd (s : jsstring) : jsstring := rev (trimStart (rev s)).

(** [s.trim()] *)
Definition trim (s : jsstring) : jsstring := trimEnd (trimStart s).

(** [s.indexOf(c)] for a one-character search string: the index of the first
    occurrence, or -1. *)
Fixpoint indexOf (s : jsstring) (c : N) : Z :=
  match s with
  | [] => -1
  | d :: s' =>
      if (d =? c)%N then 0
      else let i := indexOf s' c in if (i =? -1)%Z then -1 else (i + 1)%Z
  end.

(** [s.substring(start)]: [start] is clamped to [0 .. s.length]. *)
Definition substring (s : jsstring) (start : Z) : jsstring :=
  skipn (Z.to_nat (Z.max 0 start)) s.

(** [s.startsWith(p)] *)
Fixpoint startsWith (s p : jsstring) : bool :=
  match p, s with
  | [], _ => true
  | _ :: _, [] => false
  | d :: p', c :: s' => (c =? d)%N && startsWith s' p'
  end.

(** [s.split(sep)] for a one-character separator: never an empty array, the
    empty string splits into one empty part. *)
Fixpoint split (s : jsstring) (sep : N) : list jsstring :=
  match s with
  | [] => [[]]
  | c :: s' =>
      if (c =? sep)%N then [] :: split s' sep
      else match split s' sep with
           | p :: ps => (c :: p) :: ps
           | [] => [[c]]
           end
  end.

(** A string is truthy when it is not empty. *)
Definition truthy (s : jsstring) : bool :=
  match s with [] => false | _ :: _ => true end.

(** ** Numbers: IEEE 754 binary64 *)

Definition prec : Z := 53.
Definition emax : Z := 1024.

Definition Number := spec_float.

Definition NaN : Number := S754_nan.

(** The Number value of an integer literal. *)
Definition num (z : Z) : Number := binary_normalize prec emax z 0 false.

Definition num_mul (x y : Number) : Number := SFmul prec emax x y.
Definition num_add (x y : Number) : Number := SFadd prec emax x y.

(** The abstract relational comparison [IsLessThan]: undefined ([None]) when
    an operand is NaN. *)
Definition IsLessThan (x y : Number) : option bool :=
  match SFcompare x y with
  | None => None
  | Some Lt => Some true
  | Some _ => Some false
  end.

(** [x < y] *)
Definition num_lt (x y : Number) : bool :=
  match IsLessThan x y with Some true => true | _ => false end.

(** [x >= y] *)
Definition num_ge (x y : Number) : bool :=
  match IsLessThan x y with Some false => true | _ => false end.

(** [x === y] on numbers *)
Definition num_eq (x y : Number) : bool := SFeqb x y.

Definition isNaN (x : Number) : bool :=
  match x with S754_nan => true | _ => false end.

(** ** [parseFloat] *)

Definition isDigit (c : N) : bool := ((48 <=? c) && (c <=? 57))%N.

(** The longest run of decimal digits at the head of [s], folded into the
    accumulator [acc] as a decimal numeral; also the number of digits read
    and the rest of the string. *)
Fixpoint scanDigits (s : jsstring) (acc : N) (n : nat) : N * nat * jsstring :=
  match s with
  | c :: s' =>
      if isDigit c then scanDigits s' (10 * acc + (c - 48))%N (S n)
      else (acc, n, s)
  | [] => (acc, n, [])
  end.

(** ExponentPart: [e] or [E], an optional sign, and at least one digit;
    0 when the text at the head of [s] is not an exponent part. *)
Definition scanExponent (s : jsstring) : Z :=
  match s with
  | c :: s' =>
      if ((c =? ch "e") || (c =? ch "E"))%N then
        let '(neg, s'') :=
          match s' with
          | d :: t => if (d =? ch "-")%N then (true, t)
                      else if (d =? ch "+")%N then (false, t)
                      else (false, s')
          | [] => (false, s')
          end in
        let '(e, n, _) := scanDigits s'' 0 0 in
        match n with
        | O => 0%Z
        | S _ => if neg then (- Z.of_N e)%Z else Z.of_N e
        end
      else 0%Z
  | [] => 0%Z
  end.

(** The Number value of the mathematical value [m * 10^e], rounded to
    nearest, ties to even; a zero keeps the sign of the literal. *)
Definition decimalToNumber (neg : bool) (m : N) (e : Z) : Number :=
  match m with
  | N0 => S754_zero neg
  | Npos p =>
      match e with
      | Zneg q => SFdiv prec emax (S754_finite neg p 0)
                    (S754_finite false (10 ^ q)%positive 0)
      | _ => binary_round prec emax neg (p * Z.to_pos (10 ^ e))%positive 0
      end
  end.

(** StrUnsignedDecimalLiteral: the longest prefix of [s] of one of the forms
    [Infinity], [digits . digits? exponent?], [. digits exponent?],
    [digits exponent?]; NaN when no prefix has such a form. *)
Definition scanUnsignedDecimal (neg : bool) (s : jsstring) : Number :=
  if startsWith s (js "Infinity") then S754_infinity neg
  else
    let '(ip, ni, r) := scanDigits s 0 0 in
    match r with
    | c :: r' =>
        if (c =? ch ".")%N then
          let '(m, nf, r'') := scanDigits r' ip 0 in
          match ni, nf with
          | O, O => NaN
          | _, _ => decimalToNumber neg m (scanExponent r'' - Z.of_nat nf)
          end
        else
          match ni with
          | O => NaN
          | S _ => decimalToNumber neg ip (scanExponent r)
          end
    | [] =>
        match ni with
        | O => NaN
        | S _ => decimalToNumber neg ip 0
        end
    end.

(** [parseFloat(s)]: leading white space is skipped, then the longest prefix
    that is a StrDecimalLiteral is converted; trailing text is ignored. *)
Definition parseFloat (s : jsstring) : Number :=
  match trimStart s with
  | c :: t =>
      if (c =? ch "-")%N then scanUnsignedDecimal true t
      else if (c =? ch "+")%N then scanUnsignedDecimal false t
      else scanUnsignedDecimal false (c :: t)
  | [] => NaN
  end.

End JS.

Import JS.

(** ** Completions: normal evaluation, [return] and [throw] *)

Inductive Error : Type := TypeError.

(** The completion of a statement inside a function whose results have type
    [R]: evaluation goes on with a value, or a [return] statement has fixed
    the function's result, or an exception was thrown. *)
Inductive Completion (R A : Type) : Type :=
| Normal (a : A)
| Return (r : R)
| Throw (e : Error).

Arguments Normal {R A} a.
Arguments Return {R A} r.
Arguments Throw {R A} e.

Definition bind {R A B} (c : Completion R A) (k : A -> Completion R B)
  : Completion R B :=
  match c with
  | Normal a => k a
  | Return r => Return r
  | Throw e => Throw e
  end.

Notation "x <- c ;; k" := (bind c (fun x => k))
  (at level 61, c at next level, right associativity).
Notation "c ;;; k" := (bind c (fun _ => k))
  (at level 61, right associativity).

(** What a call of a function gives its caller. *)
Inductive Outcome (R : Type) : Type :=
| Returns (r : R)
| Raises (e : Error).

Arguments Returns {R} r.
Arguments Raises {R} e.

(** A function body never falls off its end: every path of the two functions
    ends in [return], so the body has no normal completion. *)
Definition call {R} (body : Completion R Empty_set) : Outcome R :=
  match body with
  | Normal a => match a with end
  | Return r => Returns r
  | Throw e => Raises e
  end.

(** [a[i]]: [None] is [undefined]. *)
Definition index {A} (a : list A) (i : nat) : option A := nth_error a i.

(** [v.trim()] where [v] may be [undefined]: a method call on [undefined]
    throws a TypeError. *)
Definition callTrim {R} (v : option jsstring) : Completion R jsstring :=
  match v with
  | Some s => Normal (trim s)
  | None => Throw TypeError
  end.

(** [ToString(v)] for a string or [undefined]. *)
Definition ToString (v : option jsstring) : jsstring :=
  match v with
  | Some s => s
  | None => js "undefined"
  end.

(** ** The data model *)

(** [interface TemporalFragment { start?: number; end?: number }]; the field
    [end] is written [end_]. *)
Record TemporalFragment : Type := mkTemporalFragment {
  start : option Number;
  end_ : option Number
}.

(** [interface MediaFragmentParseResult { temporalFragment?: TemporalFragment }] *)
Record MediaFragmentParseResult : Type := mkResult {
  temporalFragment : option TemporalFragment
}.

(** The object literal [{}]. *)
Definition emptyFragment : TemporalFragment :=
  {| start := None; end_ := None |}.

Definition setStart (tf : TemporalFragment) (v : Number) : TemporalFragment :=
  {| start := Some v; end_ := end_ tf |}.

Definition setEnd (tf : TemporalFragment) (v : Number) : TemporalFragment :=
  {| start := start tf; end_ := Some v |}.

(** [{ temporalFragment: undefined }] *)
Definition absent : MediaFragmentParseResult :=
  {| temporalFragment := None |}.

(** ** The regular expressions *)

(** [/^\d+(\.\d+)?$/.test(s)]: a non-empty run of digits, then the end of
    the input or a dot, a non-empty run of digits and the end of the input. *)
Fixpoint skipDigits (s : jsstring) : jsstring :=
  match s with
  | c :: s' => if isDigit c then skipDigits s' else s
  | [] => []
  end.

Definition headIsDigit (s : jsstring) : bool :=
  match s with
  | c :: _ => isDigit c
  | [] => false
  end.

Definition nptSecTest (s : jsstring) : bool :=
  headIsDigit s &&
  match skipDigits s with
  | [] => true
  | c :: r =>
      (c =? ch ".")%N && headIsDigit r &&
      match skipDigits r with [] => true | _ :: _ => false end
  end.

(** The global regular expression of [parseMediaFragment]: the start of the
    input or an ampersand, then [t=], then a captured greedy run of
    characters other than the ampersand.  The state of the regular
    expression object is its [lastIndex]; it is kept here as the part of the
    fragment from [lastIndex] on together with the flag [lastIndex = 0]. *)

(** The capture group, a greedy run of characters other than the ampersand:
    the captured run and what follows it. *)
Fixpoint takeNonAmp (s : jsstring) : jsstring * jsstring :=
  match s with
  | c :: s' =>
      if (c =? ch "&")%N then ([], s)
      else let '(v, r) := takeNonAmp s' in (c :: v, r)
  | [] => ([], [])
  end.

(** [t=] and the capture group at the head of [s]. *)
Definition matchParam (s : jsstring) : option (jsstring * jsstring) :=
  match s with
  | c :: d :: v =>
      if ((c =? ch "t") && (d =? ch "="))%N then Some (takeNonAmp v) else None
  | _ => None
  end.

(** One call of [regex.exec(fragment)]: the first position at or after
    [lastIndex] where the pattern matches, trying [^] (which holds at index 0
    only) before [&]; the result is the capture group [match[1]] and the
    input from the new [lastIndex] on, or [None] for [null]. *)
Fixpoint regexExec (atStart : bool) (s : jsstring)
  : option (jsstring * jsstring) :=
  match (if atStart then matchParam s else None) with
  | Some m => Some m
  | None =>
      match s with
      | [] => None
      | c :: s' =>
          match (if (c =? ch "&")%N then matchParam s' else None) with
          | Some m => Some m
          | None => regexExec false s'
          end
      end
  end.

(** Every match consumes at least [t=], so the loop over [regex.exec] ends. *)
Lemma takeNonAmp_length (s : jsstring) :
  length (snd (takeNonAmp s)) <= length s.
Proof.
  induction s as [|c s IH]; simpl; [lia|].
  destruct (c =? ch "&")%N; simpl; [lia|].
  destruct (takeNonAmp s) as [v r]; simpl in *; lia.
Qed.

Lemma matchParam_length (s m r : jsstring) :
  matchParam s = Some (m, r) -> length r + 2 <= length s.
Proof.
  destruct s as [|c [|d v]]; cbn [matchParam]; try discriminate.
  destruct ((c =? ch "t") && (d =? ch "="))%N; [|discriminate].
  intros H. injection H as H. pose proof (takeNonAmp_length v) as L.
  rewrite H in L. cbn [snd length] in *. lia.
Qed.

Lemma regexExec_length (atStart : bool) (s m r : jsstring) :
  regexExec atStart s = Some (m, r) -> length r < length s.
Proof.
  revert atStart. induction s as [|c s IH]; intros atStart; cbn [regexExec].
  - destruct atStart; discriminate.
  - destruct (if atStart then matchParam (c :: s) else None) as [p|] eqn:E1.
    + destruct atStart; [|discriminate]. intros H. injection H as ->.
      apply matchParam_length in E1. cbn [length] in *. lia.
    + destruct (if (c =? ch "&")%N then matchParam s else None) as [p|] eqn:E2.
      * destruct (c =? ch "&")%N; [|discriminate]. intros H. injection H as ->.
        apply matchParam_length in E2. cbn [length]. lia.
      * intros H. apply IH in H. cbn [length]. lia.
Qed.

Definition inspect {A} (a : A) : {b : A | a = b} := exist _ a eq_refl.

(** [while ((match = regex.exec(fragment)) !== null) temporalMatch = match[1];]
    started with the regular expression in the state ([atStart], [s]). *)
Equations execLoop (atStart : bool) (s : jsstring)
  (temporalMatch : option jsstring) : option jsstring by wf (length s) lt :=
  execLoop atStart s temporalMatch with inspect (regexExec atStart s) := {
    | exist _ (Some (m1, rest)) H => execLoop false rest (Some m1)
    | exist _ None _ => temporalMatch }.
Next Obligation.
  eapply regexExec_length; eassumption.
Qed.

(** ** [parseNptTime] *)

Definition parseNptTime (timeStr : jsstring) : option Number :=
  let timeStr := trim timeStr in
  if negb (truthy timeStr) then None
  else if nptSecTest timeStr then Some (parseFloat timeStr)
  else
    let parts := split timeStr (ch ":") in
    if (length parts =? 2)%nat then
      let minutes := parseFloat (ToString (index parts 0)) in
      let seconds := parseFloat (ToString (index parts 1)) in
      if isNaN minutes || isNaN seconds
         || num_lt minutes (num 0) || num_ge minutes (num 60)
         || num_lt seconds (num 0) || num_ge seconds (num 60)
      then None
      else Some (num_add (num_mul minutes (num 60)) seconds)
    else if (length parts =? 3)%nat then
      let hours := parseFloat (ToString (index parts 0)) in
      let minutes := parseFloat (ToString (index parts 1)) in
      let seconds := parseFloat (ToString (index parts 2)) in
      if isNaN hours || isNaN minutes || isNaN seconds
         || num_lt hours (num 0) || num_lt minutes (num 0) || num_lt seconds (num 0)
         || num_ge minutes (num 60) || num_ge seconds (num 60)
      then None
      else Some (num_add (num_add (num_mul hours (num 3600)) (num_mul minutes (num 60))) seconds)
    else None.

(** ** [parseMediaFragment] *)

(** [if (b) return r;] *)
Definition returnIf {R} (b : bool) (r : R) : Completion R unit :=
  if b then Return r else Normal tt.

(** [tf.start !== undefined && tf.end !== undefined && tf.start >= tf.end] *)
Definition boundsInverted (tf : TemporalFragment) : bool :=
  match start tf, end_ tf with
  | Some s, Some e => num_ge s e
  | _, _ => false
  end.

(** [tf.start === undefined && tf.end === 0] *)
Definition endsAtOrigin (tf : TemporalFragment) : bool :=
  match start tf, end_ tf with
  | None, Some e => num_eq e (num 0)
  | _, _ => false
  end.

(** [tf.start === undefined && tf.end === undefined] *)
Definition noBounds (tf : TemporalFragment) : bool :=
  match start tf, end_ tf with
  | None, None => true
  | _, _ => false
  end.

(** Lines 38 to 100 of [parseMediaFragment]: what the function does with the
    value [temporalMatch] of the selected [t=] parameter. *)
Definition parseTemporalMatch (temporalMatch : jsstring)
  : Completion MediaFragmentParseResult Empty_set :=
  let cleanValue :=
    if startsWith temporalMatch (js "npt:") then substring temporalMatch 4
    else temporalMatch in
  let parts := split cleanValue (ch ",") in
  let temporalFragment := emptyFragment in
  temporalFragment <-
    (if (length parts =? 1)%nat then
       startTime <- callTrim (index parts 0) ;;
       if truthy startTime then
         match parseNptTime startTime with
         | None => Return absent
         | Some startTimeValue =>
             Normal (if num_ge startTimeValue (num 0)
                     then setStart temporalFragment startTimeValue
                     else temporalFragment)
         end
       else Normal temporalFragment
     else if (length parts =? 2)%nat then
       startTime <- callTrim (index parts 0) ;;
       endTime <- callTrim (index parts 1) ;;
       temporalFragment <-
         (if truthy startTime then
            match parseNptTime startTime with
            | None => Return absent
            | Some startTimeValue =>
                Normal (if num_ge startTimeValue (num 0)
                        then setStart temporalFragment startTimeValue
                        else temporalFragment)
            end
          else Normal temporalFragment) ;;
       if truthy endTime then
         match parseNptTime endTime with
         | None => Return absent
         | Some endTimeValue =>
             Normal (if num_ge endTimeValue (num 0)
                     then setEnd temporalFragment endTimeValue
                     else temporalFragment)
         end
       else Normal temporalFragment
     else Return absent) ;;
  returnIf (boundsInverted temporalFragment) absent ;;;
  returnIf (endsAtOrigin temporalFragment) absent ;;;
  returnIf (noBounds temporalFragment) absent ;;;
  Return {| temporalFragment := Some temporalFragment |}.

(** Lines 24 to 37: the fragment body and the last match of the regular
    expression; [null] and the empty string are both falsy. *)
Definition parseMediaFragmentBody (sourceUrl : jsstring)
  : Completion MediaFragmentParseResult Empty_set :=
  let hashIndex := indexOf sourceUrl (ch "#") in
  returnIf (hashIndex =? -1)%Z absent ;;;
  let fragment := substring sourceUrl (hashIndex + 1) in
  let temporalMatch := execLoop true fragment None in
  match temporalMatch with
  | Some (c :: v) => parseTemporalMatch (c :: v)
  | _ => Return absent
  end.

Definition parseMediaFragment (sourceUrl : jsstring)
  : Outcome MediaFragmentParseResult :=
  call (parseMediaFragmentBody sourceUrl).

(** ** The boundary enforcer *)

Module Enforcer.

(** Modelled from the spec: the controller that owns the latch is not among
    the sources.  The latch of section 3: [armed] is true once a window with
    an [end] bound is registered, [fired] becomes true the first time the
    boundary is crossed. *)
Record BoundaryLatch : Type := mkLatch {
  armed : bool;
  fired : bool
}.

(** Modelled from the spec: the enforcer is handed a window, possibly none,
    and keeps it next to the latch. *)
Record State : Type := mkState {
  window : option TemporalFragment;
  latch : BoundaryLatch
}.

(** Modelled from the spec: what an update asks of the collaborators, a pause
    of the media or a "boundary reached" notification carrying the window. *)
Inductive Action : Type :=
| PauseRequest
| BoundaryReached (w : TemporalFragment).

Definition hasEnd (w : option TemporalFragment) : bool :=
  match w with
  | Some tf => match end_ tf with Some _ => true | None => false end
  | None => false
  end.

(** Modelled from the spec: [onWindowRegistered(window)] resets the latch,
    [armed = window.end is present] and [fired = false]. *)
Definition onWindowRegistered (w : option TemporalFragment) : State :=
  {| window := w; latch := {| armed := hasEnd w; fired := false |} |}.

Definition fire (st : State) : State :=
  {| window := window st;
     latch := {| armed := armed (latch st); fired := true |} |}.

(** Modelled from the spec: [onPositionUpdate(position, isAlreadyPaused)] of
    section 4.2.  A no-op if not armed or already fired.  If
    [position >= window.end] and the media is not already paused: a pause
    request, [fired = true] and the notification.  If it is already paused
    at or past the end, [fired = true] on this first observation and no pause
    request; the section does not say whether the notification is emitted
    then, so the model takes that as the parameter [notifyWhenPaused]. *)
Definition onPositionUpdate (notifyWhenPaused : bool) (st : State)
  (position : Number) (isAlreadyPaused : bool) : State * list Action :=
  if negb (armed (latch st)) || fired (latch st) then (st, [])
  else
    match window st with
    | Some w =>
        match end_ w with
        | Some e =>
            if num_ge position e then
              if isAlreadyPaused
              then (fire st, if notifyWhenPaused then [BoundaryReached w] else [])
              else (fire st, [PauseRequest; BoundaryReached w])
            else (st, [])
        | None => (st, [])
        end
    | None => (st, [])
    end.

(** The position feed: each update is handled to completion before the next,
    and the actions are collected in order. *)
Fixpoint feed (notifyWhenPaused : bool) (st : State)
  (updates : list (Number * bool)) : State * list Action :=
  match updates with
  | [] => (st, [])
  | (position, isAlreadyPaused) :: rest =>
      let '(st1, acts1) := onPositionUpdate notifyWhenPaused st position isAlreadyPaused in
      let '(st2, acts2) := feed notifyWhenPaused st1 rest in
      (st2, acts1 ++ acts2)
  end.

Definition isPause (a : Action) : bool :=
  match a with PauseRequest => true | BoundaryReached _ => false end.

Definition isNotification (a : Action) : bool :=
  match a with PauseRequest => false | BoundaryReached _ => true end.

Definition pauses (acts : list Action) : nat := length (filter isPause acts).
Definition notifications (acts : list Action) : nat :=
  length (filter isNotification acts).

End Enforcer.

(** * The vocabulary of the statements *)

(** The value of a parameter of the form [t=value]. *)
Definition paramValue (p : jsstring) : option jsstring :=
  match p with
  | c :: d :: v => if ((c =? ch "t") && (d =? ch "="))%N then Some v else None
  | _ => None
  end.

(** The value of the last [t=] parameter of a list of parameters, [acc] when
    there is none. *)
Fixpoint lastValue (ps : list jsstring) (acc : option jsstring)
  : option jsstring :=
  match ps with
  | [] => acc
  | p :: ps' =>
      lastValue ps' (match paramValue p with Some v => Some v | None => acc end)
  end.

(** The parameters the regular expression can still see from a state: all of
    them at index 0, and later only those that start after the next
    ampersand. *)
Definition pending (atStart : bool) (s : jsstring) : list jsstring :=
  if atStart then split s (ch "&") else tl (split s (ch "&")).

(** [v] is the value of the last parameter of the form [t=v] among the
    parameters of the fragment body, which are separated by ampersands. *)
Definition selects (body v : jsstring) : Prop :=
  exists before after,
    split body (ch "&") = before ++ (js "t=" ++ v) :: after /\
    forall p, In p after -> startsWith p (js "t=") = false.

(** What the statements after the parsing of the parts let through: bounds
    that passed the test [>= 0], and none of the three rejections. *)
Definition wellFormed (tf : TemporalFragment) : Prop :=
  (forall s, start tf = Some s -> num_ge s (num 0) = true)
  /\ (forall e, end_ tf = Some e -> num_ge e (num 0) = true)
  /\ boundsInverted tf = false
  /\ endsAtOrigin tf = false
  /\ noBounds tf = false.

(** A string of white space only. *)
Definition blank (w : jsstring) : Prop :=
  Forall (fun c => isWhiteSpace c = true) w.

(** The value without its optional [npt:] prefix, the [cleanValue] of
    [parseMediaFragment]. *)
Definition cleanValueOf (temporalMatch : jsstring) : jsstring :=
  if startsWith temporalMatch (js "npt:") then substring temporalMatch 4
  else temporalMatch.

(** A string of decimal digits. *)
Definition digits (s : jsstring) : Prop :=
  Forall (fun c => isDigit c = true) s.

(** The value of a decimal numeral read after the value [acc]. *)
Definition decimalValue (s : jsstring) (acc : N) : N :=
  fold_left (fun a c => 10 * a + (c - 48))%N s acc.

(** A number that is not NaN and carries the sign [s]. *)
Definition hasSign (s : bool) (x : Number) : Prop :=
  match x with
  | S754_zero s' | S754_infinity s' | S754_finite s' _ _ => s' = s
  | S754_nan => False
  end.

(** The window of the enforcer's test: [#t=10,20]. *)
Definition window20 : TemporalFragment :=
  {| start := Some (num 10); end_ := Some (num 20) |}.

(** * Properties *)

(** ** Strings *)

Section StringFacts.

Lemma indexOf_absent (s : jsstring) (c : N) :
  ~ In c s -> indexOf s c = (-1)%Z.
Proof.
  induction s as [|d s IH]; intros H; cbn [indexOf]; [reflexivity|].
  destruct (N.eqb_spec d c) as [->|_]; [exfalso; apply H; left; reflexivity|].
  rewrite IH by (intros Hin; apply H; right; exact Hin). reflexivity.
Qed.

Lemma indexOf_present (s : jsstring) (c : N) :
  In c s -> (0 <= indexOf s c)%Z.
Proof.
  induction s as [|d s IH]; intros H; cbn [indexOf]; [destruct H|].
  destruct (N.eqb_spec d c) as [_|Hne]; [lia|].
  destruct H as [H|H]; [congruence|]. specialize (IH H).
  destruct (Z.eqb_spec (indexOf s c) (-1)); lia.
Qed.

Lemma indexOf_first (pre body : jsstring) (c : N) :
  ~ In c pre -> indexOf (pre ++ c :: body) c = Z.of_nat (length pre).
Proof.
  induction pre as [|d pre IH]; intros H; cbn [indexOf app length].
  - rewrite N.eqb_refl. reflexivity.
  - destruct (N.eqb_spec d c) as [->|_]; [exfalso; apply H; left; reflexivity|].
    rewrite IH by (intros Hin; apply H; right; exact Hin).
    destruct (Z.eqb_spec (Z.of_nat (length pre)) (-1)); lia.
Qed.

Lemma substring_after (pre body : jsstring) (c : N) :
  substring (pre ++ c :: body) (Z.of_nat (length pre) + 1) = body.
Proof.
  unfold substring.
  replace (Z.to_nat (Z.max 0 (Z.of_nat (length pre) + 1))) with (length pre + 1)
    by lia.
  induction pre as [|d pre IH]; [reflexivity|exact IH].
Qed.

End StringFacts.

(** ** Splitting *)

Section SplitFacts.

Variable sep : N.

Lemma split_not_nil (s : jsstring) : split s sep <> [].
Proof.
  destruct s as [|c s]; cbn [split]; [discriminate|].
  destruct (c =? sep)%N; [discriminate|].
  destruct (split s sep); discriminate.
Qed.

Lemma split_cons_other (c : N) (s : jsstring) :
  c <> sep ->
  split (c :: s) sep = (c :: hd [] (split s sep)) :: tl (split s sep).
Proof.
  intros H. cbn [split]. destruct (N.eqb_spec c sep) as [E|_]; [contradiction|].
  destruct (split s sep) eqn:E; [exfalso; exact (split_not_nil s E)|reflexivity].
Qed.

Lemma split_cons_sep (s : jsstring) :
  split (sep :: s) sep = [] :: split s sep.
Proof. cbn [split]. rewrite N.eqb_refl. reflexivity. Qed.

(** A string without the separator is its own single part. *)
Lemma split_none (s : jsstring) : ~ In sep s -> split s sep = [s].
Proof.
  induction s as [|c s IH]; intros H; [reflexivity|].
  rewrite split_cons_other by (intros ->; apply H; left; reflexivity).
  rewrite IH by (intros Hin; apply H; right; exact Hin). reflexivity.
Qed.

(** Parts joined by the separator split back into the parts. *)
Lemma split_app (a b : jsstring) :
  ~ In sep a -> split (a ++ sep :: b) sep = a :: split b sep.
Proof.
  induction a as [|c a IH]; intros H; cbn [app].
  - apply split_cons_sep.
  - rewrite split_cons_other by (intros ->; apply H; left; reflexivity).
    rewrite IH by (intros Hin; apply H; right; exact Hin). reflexivity.
Qed.

(** No part contains the separator. *)
Lemma split_parts_clean (s p : jsstring) :
  In p (split s sep) -> ~ In sep p.
Proof.
  revert p. induction s as [|c s IH]; intros p; cbn [split].
  - intros [<-|[]] [].
  - destruct (N.eqb_spec c sep) as [->|Hne].
    + intros [<-|H]; [intros []|apply IH; exact H].
    + destruct (split s sep) as [|q qs] eqn:E; [intros [<-|[]] [E'|[]]; congruence|].
      intros [<-|H].
      * intros [E'|Hin]; [congruence|]. apply (IH q); [left; reflexivity|exact Hin].
      * apply IH; right; exact H.
Qed.

(** The number of parts is one more than the number of separators. *)
Lemma split_length (s : jsstring) :
  length (split s sep) = S (count_occ N.eq_dec s sep).
Proof.
  induction s as [|c s IH]; [reflexivity|].
  cbn [split count_occ]. destruct (N.eqb_spec c sep) as [->|Hne].
  - destruct (N.eq_dec sep sep); [|contradiction]. cbn [length]. rewrite IH. reflexivity.
  - destruct (N.eq_dec c sep); [contradiction|].
    destruct (split s sep); [discriminate|exact IH].
Qed.

End SplitFacts.

(** ** The regular expression selects the last [t=] parameter *)

Section LastOccurrence.

Lemma takeNonAmp_split (s : jsstring) :
  split s (ch "&") = fst (takeNonAmp s) :: pending false (snd (takeNonAmp s)).
Proof.
  unfold pending. induction s as [|c s IH]; [reflexivity|].
  cbn [takeNonAmp]. destruct (N.eqb_spec c (ch "&")) as [->|Hne].
  - cbn [fst snd]. rewrite split_cons_sep. reflexivity.
  - rewrite split_cons_other by exact Hne. rewrite IH.
    destruct (takeNonAmp s) as [v r]. reflexivity.
Qed.

Lemma matchParam_split (s m r : jsstring) :
  matchParam s = Some (m, r) ->
  exists p, split s (ch "&") = p :: pending false r /\ paramValue p = Some m.
Proof.
  destruct s as [|c [|d v]]; cbn [matchParam]; try discriminate.
  destruct ((c =? ch "t") && (d =? ch "="))%N eqn:E; [|discriminate].
  intros H. injection H as H. apply andb_prop in E as [Ec Ed].
  apply N.eqb_eq in Ec, Ed. subst c d.
  exists (ch "t" :: ch "=" :: m). split; [|reflexivity].
  rewrite !split_cons_other by discriminate.
  rewrite takeNonAmp_split, H. reflexivity.
Qed.

Lemma matchParam_none (s : jsstring) :
  matchParam s = None -> paramValue (hd [] (split s (ch "&"))) = None.
Proof.
  destruct s as [|c s]; [reflexivity|].
  destruct (N.eqb_spec c (ch "&")) as [->|Hc]; [rewrite split_cons_sep; reflexivity|].
  rewrite split_cons_other by exact Hc. cbn [hd].
  destruct s as [|d s].
  - reflexivity.
  - destruct (N.eqb_spec d (ch "&")) as [->|Hd].
    + rewrite split_cons_sep. reflexivity.
    + rewrite split_cons_other by exact Hd. cbn [hd paramValue matchParam].
      destruct ((c =? ch "t") && (d =? ch "="))%N; [discriminate|reflexivity].
Qed.

Lemma lastValue_skip (ps : list jsstring) (acc : option jsstring) :
  ps <> [] -> paramValue (hd [] ps) = None ->
  lastValue ps acc = lastValue (tl ps) acc.
Proof.
  destruct ps as [|p ps]; [contradiction|].
  cbn [hd tl lastValue]. intros _ ->. reflexivity.
Qed.

Lemma pending_amp (s : jsstring) :
  pending false (ch "&" :: s) = pending true s.
Proof. unfold pending. rewrite split_cons_sep. reflexivity. Qed.

Lemma pending_other (c : N) (s : jsstring) :
  c <> ch "&" -> pending false (c :: s) = pending false s.
Proof. intros H. unfold pending. rewrite split_cons_other by exact H. reflexivity. Qed.

Lemma pending_skip (s : jsstring) (acc : option jsstring) :
  matchParam s = None ->
  lastValue (pending true s) acc = lastValue (pending false s) acc.
Proof.
  intros E. unfold pending. apply lastValue_skip.
  - apply split_not_nil.
  - apply matchParam_none. exact E.
Qed.

(** One call of [exec]: either no pending parameter has the form [t=...], or
    the call returns the value of the first one that has and leaves the
    parameters after it pending. *)
Lemma regexExec_false_spec (s : jsstring) (acc : option jsstring) :
  match regexExec false s with
  | None => lastValue (pending false s) acc = acc
  | Some (m, r) =>
      lastValue (pending false s) acc = lastValue (pending false r) (Some m)
  end.
Proof.
  revert acc. induction s as [|c s IH]; intros acc; [reflexivity|].
  cbn [regexExec].
  destruct (N.eqb_spec c (ch "&")) as [->|Hc].
  - rewrite pending_amp.
    destruct (matchParam s) as [[m r]|] eqn:E.
    + apply matchParam_split in E as (p & E & Hp).
      unfold pending at 1. rewrite E. cbn [lastValue]. rewrite Hp. reflexivity.
    + rewrite pending_skip by exact E. apply IH.
  - rewrite pending_other by exact Hc. apply IH.
Qed.

Lemma regexExec_spec (atStart : bool) (s : jsstring) (acc : option jsstring) :
  match regexExec atStart s with
  | None => lastValue (pending atStart s) acc = acc
  | Some (m, r) =>
      lastValue (pending atStart s) acc = lastValue (pending false r) (Some m)
  end.
Proof.
  destruct atStart; [|apply regexExec_false_spec].
  destruct (matchParam s) as [[m r]|] eqn:E.
  - assert (R : regexExec true s = Some (m, r)).
    { destruct s as [|c s]; cbn [regexExec]; rewrite E; reflexivity. }
    rewrite R. apply matchParam_split in E as (p & E & Hp).
    unfold pending at 1. rewrite E. cbn [lastValue]. rewrite Hp. reflexivity.
  - assert (R : regexExec true s = regexExec false s).
    { destruct s as [|c s]; cbn [regexExec]; rewrite E; reflexivity. }
    rewrite R, pending_skip by exact E. apply regexExec_false_spec.
Qed.

(** The loop leaves in [temporalMatch] the value of the last pending
    parameter of the form [t=...]. *)
Lemma execLoop_spec (atStart : bool) (s : jsstring) (acc : option jsstring) :
  execLoop atStart s acc = lastValue (pending atStart s) acc.
Proof.
  funelim (execLoop atStart s acc);
    pose proof (regexExec_spec atStart s temporalMatch) as R;
    match goal with E : regexExec _ _ = _ |- _ => rewrite E in R end.
  - rewrite R. assumption.
  - symmetry. exact R.
Qed.

Lemma lastValue_app (ps qs : list jsstring) (acc : option jsstring) :
  lastValue (ps ++ qs) acc = lastValue qs (lastValue ps acc).
Proof.
  revert acc. induction ps as [|p ps IH]; intros acc; [reflexivity|].
  cbn [app lastValue]. apply IH.
Qed.

Lemma lastValue_none (ps : list jsstring) (acc : option jsstring) :
  (forall p, In p ps -> paramValue p = None) -> lastValue ps acc = acc.
Proof.
  induction ps as [|p ps IH]; intros H; [reflexivity|].
  cbn [lastValue]. rewrite (H p) by (left; reflexivity).
  apply IH. intros q Hq. apply H. right. exact Hq.
Qed.

End LastOccurrence.

(** ** The fragment body and the selected parameter *)

Section Selection.

Lemma paramValue_startsWith (p : jsstring) :
  paramValue p = None <-> startsWith p (js "t=") = false.
Proof.
  change (js "t=") with [ch "t"; ch "="].
  destruct p as [|c [|d v]]; cbn [paramValue startsWith].
  - tauto.
  - rewrite andb_false_r. tauto.
  - replace (startsWith v []) with true by (destruct v; reflexivity).
    rewrite andb_true_r.
    destruct ((c =? ch "t") && (d =? ch "="))%N; split; congruence.
Qed.

Lemma selects_lastValue (body v : jsstring) :
  selects body v -> lastValue (split body (ch "&")) None = Some v.
Proof.
  intros (before & after & E & H). rewrite E, lastValue_app. cbn [lastValue].
  change (paramValue (js "t=" ++ v)) with (Some v).
  apply lastValue_none. intros p Hp. apply paramValue_startsWith, H, Hp.
Qed.

Lemma selects_no_amp (body v : jsstring) : selects body v -> ~ In (ch "&") v.
Proof.
  intros (before & after & E & _) Hin.
  apply (split_parts_clean (ch "&") body (js "t=" ++ v)).
  - rewrite E. apply in_or_app. right. left. reflexivity.
  - right. right. exact Hin.
Qed.

Lemma selects_self (v : jsstring) :
  ~ In (ch "&") v -> selects (js "t=" ++ v) v.
Proof.
  intros H. exists [], []. split; [|intros p []].
  apply split_none. intros [E|[E|Hin]]; [discriminate E|discriminate E|auto].
Qed.

(** What [parseMediaFragment] does with a URL whose first [#] is followed by
    [body]. *)
Lemma parse_fragment_body (pre body : jsstring) :
  ~ In (ch "#") pre ->
  parseMediaFragmentBody (pre ++ ch "#" :: body) =
  match lastValue (split body (ch "&")) None with
  | Some (c :: v) => parseTemporalMatch (c :: v)
  | _ => Return absent
  end.
Proof.
  intros H. unfold parseMediaFragmentBody.
  rewrite indexOf_first by exact H.
  replace (Z.of_nat (length pre) =? -1)%Z with false by (symmetry; apply Z.eqb_neq; lia).
  cbn [returnIf bind]. rewrite substring_after, execLoop_spec. reflexivity.
Qed.

Lemma parse_selected (pre body v : jsstring) :
  ~ In (ch "#") pre -> selects body v ->
  parseMediaFragment (pre ++ ch "#" :: body) =
  call (match v with [] => Return absent | _ :: _ => parseTemporalMatch v end).
Proof.
  intros H S. unfold parseMediaFragment.
  rewrite parse_fragment_body by exact H.
  rewrite (selects_lastValue body v S). destruct v; reflexivity.
Qed.

Lemma parse_no_hash (url : jsstring) :
  ~ In (ch "#") url -> parseMediaFragment url = Returns absent.
Proof.
  intros H. unfold parseMediaFragment, parseMediaFragmentBody.
  rewrite indexOf_absent by exact H. reflexivity.
Qed.

End Selection.

(** Discharges [~ In c s] for a closed string [s]. *)
Ltac notin :=
  let H := fresh in
  intro H; vm_compute in H;
  repeat (destruct H as [H|H]; [discriminate H|]); exact H.

(** Discharges [forall p, In p l -> P p] for a closed list [l]. *)
Ltac each_part :=
  let p := fresh in let H := fresh in
  intros p H; vm_compute in H;
  repeat (destruct H as [H|H]; [subst p; vm_compute; reflexivity|]);
  destruct H.

(** ** Claims about the selection of the parameter *)

(** C1: when the fragment body has several [t=] parameters, only the last
    literal occurrence is processed: the result for the URL is the result for
    a fragment that carries that occurrence alone, whatever the earlier
    occurrences are; so a malformed last occurrence gives an absent result
    even after a well-formed one, and [#t=5&t=15,25] gives 15 to 25. *)
Theorem last_occurrence_wins (pre body v : jsstring) :
  ~ In (ch "#") pre ->
  selects body v ->
  parseMediaFragment (pre ++ ch "#" :: body)
    = parseMediaFragment (ch "#" :: js "t=" ++ v)
  /\ (parseMediaFragment (ch "#" :: js "t=" ++ v) = Returns absent ->
      parseMediaFragment (pre ++ ch "#" :: body) = Returns absent)
  /\ parseMediaFragment (js "http://example.com/video.m3u8#t=5&t=15,25")
     = Returns {| temporalFragment :=
         Some {| start := Some (num 15); end_ := Some (num 25) |} |}
  /\ parseMediaFragment (js "http://example.com/video.m3u8#t=5,10&t=invalid")
     = Returns absent.
Proof.
  intros H S.
  assert (E : parseMediaFragment (pre ++ ch "#" :: body)
              = parseMediaFragment (ch "#" :: js "t=" ++ v)).
  { rewrite (parse_selected pre body v H S).
    change (ch "#" :: js "t=" ++ v) with ([] ++ ch "#" :: (js "t=" ++ v)).
    rewrite (parse_selected [] (js "t=" ++ v) v (fun F : In (ch "#") [] => F)
               (selects_self v (selects_no_amp body v S))).
    reflexivity. }
  split; [exact E|].
  split; [intros A; rewrite E; exact A|].
  split; vm_compute; reflexivity.
Qed.

Lemma last_occurrence_wins_witness :
  parseMediaFragment (js "http://example.com/video.m3u8#t=5,10&t=invalid&t=15,25")
  = parseMediaFragment (js "#t=15,25").
Proof.
  refine (proj1 (last_occurrence_wins (js "http://example.com/video.m3u8")
                   (js "t=5,10&t=invalid&t=15,25") (js "15,25") _ _)).
  - notin.
  - exists [js "t=5,10"; js "t=invalid"], []. split; [reflexivity|intros p []].
Defined.

(** C8: a URL with no [#], or with an empty fragment body, or whose fragment
    body has only parameters that are not of the form [t=...], gives an
    absent result; and what precedes the first [#], query parameters
    included, is ignored: only the fragment body matters. *)
Theorem no_temporal_parameter (pre body body' : jsstring) :
  ~ In (ch "#") pre ->
  (forall p, In p (split body (ch "&")) -> startsWith p (js "t=") = false) ->
  parseMediaFragment pre = Returns absent
  /\ parseMediaFragment (pre ++ js "#") = Returns absent
  /\ parseMediaFragment (pre ++ ch "#" :: body) = Returns absent
  /\ parseMediaFragment (pre ++ ch "#" :: body')
     = parseMediaFragment (ch "#" :: body').
Proof.
  intros H P.
  assert (A : forall b,
    (forall p, In p (split b (ch "&")) -> startsWith p (js "t=") = false) ->
    parseMediaFragment (pre ++ ch "#" :: b) = Returns absent).
  { intros b Pb. unfold parseMediaFragment.
    rewrite parse_fragment_body by exact H.
    rewrite lastValue_none; [reflexivity|].
    intros p Hp. apply paramValue_startsWith, Pb, Hp. }
  split; [apply parse_no_hash; exact H|].
  split; [apply (A []); intros p [<-|[]]; reflexivity|].
  split; [apply A; exact P|].
  unfold parseMediaFragment.
  rewrite parse_fragment_body by exact H.
  change (ch "#" :: body') with ([] ++ ch "#" :: body').
  rewrite (parse_fragment_body [] body') by (intros []).
  reflexivity.
Qed.

Lemma no_temporal_parameter_witness :
  parseMediaFragment (js "http://example.com/video.m3u8?token=abc123")
    = Returns absent
  /\ parseMediaFragment (js "http://example.com/video.m3u8?token=abc123#")
     = Returns absent
  /\ parseMediaFragment
       (js "http://example.com/video.m3u8?token=abc123#track=video&id=main")
     = Returns absent
  /\ parseMediaFragment (js "http://example.com/video.m3u8?token=abc123#t=10,20")
     = parseMediaFragment (js "#t=10,20").
Proof.
  refine (no_temporal_parameter (js "http://example.com/video.m3u8?token=abc123")
            (js "track=video&id=main") (js "t=10,20") _ _).
  - notin.
  - each_part.
Defined.

(** ** Commas *)

Section Commas.

Lemma count_occ_drop_prefix (v : jsstring) :
  startsWith v (js "npt:") = true ->
  count_occ N.eq_dec (substring v 4) (ch ",") = count_occ N.eq_dec v (ch ",").
Proof.
  change (js "npt:") with [ch "n"; ch "p"; ch "t"; ch ":"].
  destruct v as [|a [|b [|c [|d v]]]]; cbn [startsWith];
    rewrite ?andb_false_r; try discriminate.
  intros E. repeat (apply andb_prop in E as [?%N.eqb_eq E]). subst.
  reflexivity.
Qed.

(** The number of parts of the value after the removal of the prefix. *)
Lemma clean_parts (v : jsstring) :
  length (split (if startsWith v (js "npt:") then substring v 4 else v) (ch ","))
  = length (split v (ch ",")).
Proof.
  rewrite !split_length.
  destruct (startsWith v (js "npt:")) eqn:E; [|reflexivity].
  rewrite count_occ_drop_prefix by exact E. reflexivity.
Qed.

End Commas.

(** C9: when the value of the selected [t=] parameter splits on the comma
    into three or more parts, the result is absent, whatever the parts are;
    so it is for [#t=10,20,30]. *)
Theorem too_many_parts (pre body v : jsstring) :
  ~ In (ch "#") pre ->
  selects body v ->
  3 <= length (split v (ch ",")) ->
  parseMediaFragment (pre ++ ch "#" :: body) = Returns absent.
Proof.
  intros H S L. rewrite (parse_selected pre body v H S).
  destruct v as [|c v]; [reflexivity|].
  unfold parseTemporalMatch.
  pose proof (clean_parts (c :: v)) as E.
  destruct (length (split (if startsWith (c :: v) (js "npt:")
                           then substring (c :: v) 4 else c :: v) (ch ",")))
    as [|[|[|n]]]; try lia.
  reflexivity.
Qed.

Lemma too_many_parts_witness :
  parseMediaFragment (js "http://example.com/video.m3u8#t=10,20,30")
  = Returns absent.
Proof.
  refine (too_many_parts (js "http://example.com/video.m3u8")
            (js "t=10,20,30") (js "10,20,30") _ _ _).
  - notin.
  - exists [], []. split; [reflexivity|intros p []].
  - vm_compute. lia.
Defined.

(** ** Comparisons of numbers *)

Section NumberFacts.

Lemma SFcompare_defined (x y : Number) :
  isNaN x = false -> isNaN y = false -> SFcompare x y <> None.
Proof. destruct x, y; cbn; intros; discriminate. Qed.

Lemma SFcompare_nan (x y : Number) :
  SFcompare x y <> None -> isNaN x = false /\ isNaN y = false.
Proof. destruct x, y; cbn; intros H; split; try reflexivity; contradiction. Qed.

(** A comparison that holds has no NaN operand. *)
Lemma num_ge_not_nan (x y : Number) :
  num_ge x y = true -> isNaN x = false /\ isNaN y = false.
Proof.
  unfold num_ge, IsLessThan. intros H. apply SFcompare_nan.
  destruct (SFcompare x y); [discriminate|discriminate H].
Qed.

Lemma num_lt_not_nan (x y : Number) :
  num_lt x y = true -> isNaN x = false /\ isNaN y = false.
Proof.
  unfold num_lt, IsLessThan. intros H. apply SFcompare_nan.
  destruct (SFcompare x y); [discriminate|discriminate H].
Qed.

(** On numbers that are not NaN, [x >= y] is the negation of [x < y]. *)
Lemma num_ge_negb_lt (x y : Number) :
  isNaN x = false -> isNaN y = false -> num_ge x y = negb (num_lt x y).
Proof.
  intros Hx Hy. pose proof (SFcompare_defined x y Hx Hy) as D.
  unfold num_ge, num_lt, IsLessThan.
  destruct (SFcompare x y) as [[| |]|]; try reflexivity. contradiction.
Qed.

(** *** Signs of rounded values *)

Lemma shr_m_of_loc (m : Z) (l : location) : shr_m (shr_record_of_loc m l) = m.
Proof. destruct l as [|[| |]]; reflexivity. Qed.

Lemma shr_1_nonneg (mrs : shr_record) :
  (0 <= shr_m mrs)%Z -> (0 <= shr_m (shr_1 mrs))%Z.
Proof.
  destruct mrs as [m r s]. destruct m as [|[p|p|]|p]; cbn; lia.
Qed.

Lemma iter_shr_1_nonneg (p : positive) (mrs : shr_record) :
  (0 <= shr_m mrs)%Z -> (0 <= shr_m (iter_pos shr_1 p mrs))%Z.
Proof.
  revert mrs. induction p as [p IH|p IH|]; intros mrs H; cbn [iter_pos].
  - apply IH, IH, shr_1_nonneg, H.
  - apply IH, IH, H.
  - apply shr_1_nonneg, H.
Qed.

Lemma shr_fexp_nonneg (m e : Z) (l : location) :
  (0 <= m)%Z -> (0 <= shr_m (fst (shr_fexp prec emax m e l)))%Z.
Proof.
  intros H. unfold shr_fexp, shr.
  destruct (fexp prec emax (Zdigits2 m + e) - e)%Z as [|p|p]; cbn [fst];
    try apply iter_shr_1_nonneg; rewrite shr_m_of_loc; exact H.
Qed.

Lemma round_nearest_even_nonneg (m : Z) (l : location) :
  (0 <= m)%Z -> (0 <= round_nearest_even m l)%Z.
Proof.
  intros H. destruct l as [|[| |]]; cbn [round_nearest_even];
    try destruct (Z.even m); lia.
Qed.

(** Rounding a non-negative mantissa never gives NaN and keeps the sign. *)
Lemma binary_round_aux_sign (s : bool) (m e : Z) (l : location) :
  (0 <= m)%Z -> hasSign s (binary_round_aux prec emax s m e l).
Proof.
  intros H. unfold binary_round_aux.
  pose proof (shr_fexp_nonneg m e l H) as H1.
  destruct (shr_fexp prec emax m e l) as [mrs1 e1]. cbn [fst] in H1.
  pose proof (shr_fexp_nonneg
                (round_nearest_even (shr_m mrs1) (loc_of_shr_record mrs1)) e1
                loc_Exact (round_nearest_even_nonneg _ _ H1)) as H2.
  destruct (shr_fexp prec emax _ e1 loc_Exact) as [mrs2 e2]. cbn [fst] in H2.
  destruct (shr_m mrs2) as [|q|q]; [reflexivity| |lia].
  destruct (e2 <=? emax - prec)%Z; reflexivity.
Qed.

Lemma binary_round_sign (s : bool) (m : positive) (e : Z) :
  hasSign s (binary_round prec emax s m e).
Proof.
  unfold binary_round. destruct (shl_align m e _) as [mz ez].
  apply binary_round_aux_sign. lia.
Qed.

(** The Number value of a decimal numeral is never NaN and has the sign of
    the numeral. *)
Lemma decimalToNumber_sign (neg : bool) (m : N) (e : Z) :
  hasSign neg (decimalToNumber neg m e).
Proof.
  unfold decimalToNumber. destruct m as [|p]; [reflexivity|].
  destruct e as [|q|q]; try apply binary_round_sign.
  unfold SFdiv, SFdiv_core_binary.
  set (m' := match (0 - 0 - _)%Z with Z0 => Zpos p | Zpos _ => _ | Zneg _ => _ end).
  assert (M : (0 <= m')%Z).
  { subst m'. destruct (0 - 0 - _)%Z; try lia. apply Z.shiftl_nonneg. lia. }
  pose proof (Z.div_eucl_eq m' (Zpos (10 ^ q)) ltac:(lia)) as Q.
  pose proof (Z.mod_pos_bound m' (Zpos (10 ^ q)) ltac:(lia)) as R.
  unfold Z.modulo in R.
  destruct (Z.div_eucl m' (Zpos (10 ^ q))) as [qq r].
  replace (xorb neg false) with neg by (destruct neg; reflexivity).
  apply binary_round_aux_sign. nia.
Qed.


End NumberFacts.

(** ** The window that is returned *)

Section ReturnedWindow.

Ltac step :=
  cbn [bind callTrim index nth_error length Nat.eqb returnIf
       setStart setEnd start end_ emptyFragment];
  match goal with
  | |- context [truthy ?s] => destruct (truthy s)
  | |- context [parseNptTime ?s] => destruct (parseNptTime s) as [?v|]
  | |- context [if num_ge ?x (num 0) then _ else _] =>
      destruct (num_ge x (num 0)) eqn:?
  end.

Ltac settle :=
  unfold returnIf, boundsInverted, endsAtOrigin, noBounds;
  cbn [bind setStart setEnd start end_ emptyFragment];
  repeat match goal with
  | |- context [if ?b then _ else _] => destruct b eqn:?; cbn [bind]
  end;
  first
    [ left; reflexivity
    | right; eexists; split; [reflexivity|];
      unfold wellFormed, boundsInverted, endsAtOrigin, noBounds;
      cbn [start end_ setStart setEnd emptyFragment];
      repeat split; try assumption; try reflexivity;
      intros ? D; first [discriminate D | injection D as <-; assumption] ].

(** The statements of lines 38 to 100 never throw; they return an absent
    result or a well-formed window. *)
Lemma parseTemporalMatch_cases (temporalMatch : jsstring) :
  parseTemporalMatch temporalMatch = Return absent
  \/ exists tf,
       parseTemporalMatch temporalMatch
         = Return {| temporalFragment := Some tf |}
       /\ wellFormed tf.
Proof.
  unfold parseTemporalMatch.
  destruct (split (if startsWith temporalMatch (js "npt:")
                   then substring temporalMatch 4 else temporalMatch) (ch ","))
    as [|p0 [|p1 [|p2 ps]]].
  - left. reflexivity.
  - repeat step; settle.
  - repeat step; settle.
  - left. reflexivity.
Qed.

Lemma parseMediaFragment_cases (url : jsstring) :
  parseMediaFragment url = Returns absent
  \/ exists tf,
       parseMediaFragment url = Returns {| temporalFragment := Some tf |}
       /\ wellFormed tf.
Proof.
  unfold parseMediaFragment, parseMediaFragmentBody.
  destruct (indexOf url (ch "#") =? -1)%Z; [left; reflexivity|].
  cbn [returnIf bind].
  destruct (execLoop true _ None) as [[|c v]|]; try (left; reflexivity).
  destruct (parseTemporalMatch_cases (c :: v)) as [E|(tf & E & W)]; rewrite E.
  - left. reflexivity.
  - right. exists tf. split; [reflexivity|exact W].
Qed.

End ReturnedWindow.

(** C2: a temporal fragment that [parseMediaFragment] returns has a bound;
    when it has both, the start is strictly less than the end; and it is
    never an end of 0 without a start. *)
Theorem window_invariants (url : jsstring) (tf : TemporalFragment) :
  parseMediaFragment url = Returns {| temporalFragment := Some tf |} ->
  ~ (start tf = None /\ end_ tf = None)
  /\ (forall s e, start tf = Some s -> end_ tf = Some e -> num_lt s e = true)
  /\ ~ (start tf = None /\ exists e, end_ tf = Some e /\ num_eq e (num 0) = true).
Proof.
  intros H.
  destruct (parseMediaFragment_cases url) as [E|(tf' & E & W)];
    rewrite E in H; [discriminate H|].
  injection H as <-. destruct W as (Ws & We & Wi & Wo & Wn).
  unfold boundsInverted, endsAtOrigin, noBounds in *.
  destruct tf' as [[s|] [e|]]; cbn [start end_] in *.
  - split; [intros [D _]; discriminate D|].
    split; [|intros [D _]; discriminate D].
    intros s' e' [= <-] [= <-].
    destruct (num_ge_not_nan s (num 0) (Ws s eq_refl)) as [Ns _].
    destruct (num_ge_not_nan e (num 0) (We e eq_refl)) as [Ne _].
    rewrite (num_ge_negb_lt s e Ns Ne) in Wi.
    destruct (num_lt s e); [reflexivity|discriminate Wi].
  - split; [intros [D _]; discriminate D|].
    split; [intros s' e' _ D; discriminate D|intros [D _]; discriminate D].
  - split; [intros [_ D]; discriminate D|].
    split; [intros s' e' D; discriminate D|].
    intros [_ (e' & [= <-] & Z)]. rewrite Z in Wo. discriminate Wo.
  - discriminate Wn.
Qed.

Lemma window_invariants_witness :
  num_lt (num 10) (num 20) = true.
Proof.
  refine (proj1 (proj2 (window_invariants (js "http://example.com/video.m3u8#t=10,20")
     {| start := Some (num 10); end_ := Some (num 20) |} _)) _ _ eq_refl eq_refl).
  vm_compute. reflexivity.
Defined.

(** C5: the claim fails on the code in its second half.  The first half
    holds: for every input string the function returns and never throws, and
    a rejected value such as [abc,def] gives the result of a URL without
    fragment.  But not every malformed input is rejected: a
    colon group is read by [parseFloat], which ignores what follows the
    longest numeric prefix, so the malformed values [1:30abc] and [1e1:00]
    give windows where the claim says the result is absent.  The defect is
    the one of C3. *)
Theorem malformed_group_yields_window :
  (forall url, exists r, parseMediaFragment url = Returns r)
  /\ parseMediaFragment (js "http://example.com/video.m3u8#t=abc,def")
     = parseMediaFragment (js "http://example.com/video.m3u8")
  /\ parseMediaFragment (js "http://example.com/video.m3u8#t=1:30abc")
     = Returns {| temporalFragment :=
         Some {| start := Some (num 90); end_ := None |} |}
  /\ parseMediaFragment (js "http://example.com/video.m3u8#t=1e1:00,0:11:00")
     = Returns {| temporalFragment :=
         Some {| start := Some (num 600); end_ := Some (num 660) |} |}.
Proof.
  split; [|split; [|split]].
  - intros url.
    destruct (parseMediaFragment_cases url) as [E|(tf & E & _)]; rewrite E;
      eexists; reflexivity.
  - vm_compute. reflexivity.
  - vm_compute. reflexivity.
  - vm_compute. reflexivity.
Qed.

(** ** A bound that does not parse *)

Section FailedBound.

(** When the time-value parse of a bound fails, the result is absent,
    whatever the other bound of the pair is. *)
Lemma failed_bound_discards_window (temporalMatch a b : jsstring) :
  split (cleanValueOf temporalMatch) (ch ",") = [a; b] ->
  (truthy (trim a) = true /\ parseNptTime (trim a) = None)
  \/ (truthy (trim b) = true /\ parseNptTime (trim b) = None) ->
  parseTemporalMatch temporalMatch = Return absent.
Proof.
  intros S F. unfold parseTemporalMatch.
  change (if startsWith temporalMatch (js "npt:")
          then substring temporalMatch 4 else temporalMatch)
    with (cleanValueOf temporalMatch).
  rewrite S. cbn [length Nat.eqb index nth_error callTrim bind].
  destruct F as [[T P]|[T P]].
  - rewrite T, P. reflexivity.
  - rewrite T, P.
    destruct (truthy (trim a)); [destruct (parseNptTime (trim a))|]; reflexivity.
Qed.

Lemma failed_start_discards_window (temporalMatch a : jsstring) :
  split (cleanValueOf temporalMatch) (ch ",") = [a] ->
  truthy (trim a) = true -> parseNptTime (trim a) = None ->
  parseTemporalMatch temporalMatch = Return absent.
Proof.
  intros S T P. unfold parseTemporalMatch.
  change (if startsWith temporalMatch (js "npt:")
          then substring temporalMatch 4 else temporalMatch)
    with (cleanValueOf temporalMatch).
  rewrite S. cbn [length Nat.eqb index nth_error callTrim bind].
  rewrite T, P. reflexivity.
Qed.

End FailedBound.

(** ** Trimming *)

Section TrimFacts.

Lemma trimStart_blank_app (w s : jsstring) :
  blank w -> trimStart (w ++ s) = trimStart s.
Proof.
  induction 1 as [|c w Hc _ IH]; [reflexivity|].
  cbn [app trimStart]. rewrite Hc. exact IH.
Qed.

Lemma trimStart_blank (w : jsstring) : blank w -> trimStart w = [].
Proof.
  intros H. rewrite <- (app_nil_r w). rewrite trimStart_blank_app by exact H.
  reflexivity.
Qed.

Lemma trimStart_app (a b : jsstring) :
  trimStart (a ++ b) =
  match trimStart a with
  | [] => trimStart b
  | _ :: _ => trimStart a ++ b
  end.
Proof.
  induction a as [|c a IH]; [reflexivity|].
  cbn [app trimStart]. destruct (isWhiteSpace c); [exact IH|reflexivity].
Qed.

Lemma trimStart_head (c : N) (s : jsstring) :
  isWhiteSpace c = false -> trimStart (c :: s) = c :: s.
Proof. intros H. cbn [trimStart]. rewrite H. reflexivity. Qed.

Lemma blank_rev (w : jsstring) : blank w -> blank (rev w).
Proof. apply Forall_rev. Qed.

Lemma trimEnd_app_blank (s w : jsstring) :
  blank w -> trimEnd (s ++ w) = trimEnd s.
Proof.
  intros H. unfold trimEnd. rewrite rev_app_distr.
  rewrite trimStart_blank_app by (apply blank_rev; exact H). reflexivity.
Qed.


(** White space around a part does not change what [trim] gives. *)
Lemma trim_pad (w1 a w2 : jsstring) :
  blank w1 -> blank w2 -> trim (w1 ++ a ++ w2) = trim a.
Proof.
  intros H1 H2. unfold trim.
  rewrite trimStart_blank_app by exact H1. rewrite trimStart_app.
  destruct (trimStart a) as [|c t].
  - rewrite trimStart_blank by exact H2. reflexivity.
  - apply trimEnd_app_blank. exact H2.
Qed.

(** A part of white space only trims to the empty string. *)
Lemma trim_blank (w : jsstring) : blank w -> trim w = [].
Proof.
  intros H. unfold trim. rewrite trimStart_blank by exact H. reflexivity.
Qed.


Lemma blank_not_in (w : jsstring) (c : N) :
  isWhiteSpace c = false -> blank w -> ~ In c w.
Proof.
  intros Hc H Hin. unfold blank in H. rewrite Forall_forall in H.
  specialize (H c Hin). congruence.
Qed.

End TrimFacts.

(** ** The parts of the value *)

Section Parts.

(** The statements of lines 38 to 100 read the parts only through their
    number and their trimmed text. *)
Lemma trimmed_parts_determine (v v' : jsstring) :
  map trim (split (cleanValueOf v) (ch ","))
    = map trim (split (cleanValueOf v') (ch ",")) ->
  parseTemporalMatch v = parseTemporalMatch v'.
Proof.
  unfold parseTemporalMatch.
  change (if startsWith v (js "npt:") then substring v 4 else v)
    with (cleanValueOf v).
  change (if startsWith v' (js "npt:") then substring v' 4 else v')
    with (cleanValueOf v').
  destruct (split (cleanValueOf v) (ch ",")) as [|p0 [|p1 [|p2 ps]]];
    destruct (split (cleanValueOf v') (ch ",")) as [|q0 [|q1 [|q2 qs]]];
    cbn [map]; intros E; try discriminate E; try reflexivity.
  - injection E as E0.
    cbn [length Nat.eqb index nth_error callTrim bind]. rewrite E0. reflexivity.
  - injection E as E0 E1.
    cbn [length Nat.eqb index nth_error callTrim bind]. rewrite E0, E1.
    reflexivity.
Qed.

(** A URL whose fragment is the single parameter [t=v]. *)
Lemma parse_value (pre v : jsstring) :
  ~ In (ch "#") pre -> ~ In (ch "&") v ->
  parseMediaFragment (pre ++ js "#t=" ++ v) = call (parseTemporalMatch v).
Proof.
  intros H A.
  change (js "#t=" ++ v) with (ch "#" :: js "t=" ++ v).
  rewrite (parse_selected pre (js "t=" ++ v) v H (selects_self v A)).
  destruct v; reflexivity.
Qed.

Lemma startsWith_app_false (a rest p : jsstring) :
  startsWith a p = false ->
  match rest with [] => True | r :: _ => ~ In r p end ->
  startsWith (a ++ rest) p = false.
Proof.
  revert a. induction p as [|d p IH]; intros a H R.
  - destruct a; discriminate H.
  - destruct a as [|c a]; cbn [app startsWith] in *.
    + destruct rest as [|r rest]; [reflexivity|]. cbn [startsWith].
      destruct (N.eqb_spec r d) as [->|_]; [|reflexivity].
      exfalso. apply R. left. reflexivity.
    + destruct (c =? d)%N; [|reflexivity]. cbn [andb] in *.
      apply IH; [exact H|]. destruct rest as [|r rest]; [exact I|].
      intros Hin. apply R. right. exact Hin.
Qed.

Lemma blank_head_not_prefix (w tail : jsstring) :
  blank w ->
  match w ++ tail with
  | [] => True
  | r :: _ => tail = [] \/ r = hd r tail \/ isWhiteSpace r = true
  end.
Proof.
  intros H. destruct w as [|c w]; cbn [app].
  - destruct tail; [exact I|]. right. left. reflexivity.
  - right. right. inversion H. assumption.
Qed.

Lemma white_not_in_prefix (r : N) :
  isWhiteSpace r = true -> ~ In r (js "npt:").
Proof.
  intros W Hin. vm_compute in Hin.
  repeat (destruct Hin as [Hin|Hin]; [subst r; discriminate W|]). exact Hin.
Qed.

(** White space or a comma after a part cannot complete the prefix. *)
Lemma clean_padded (w1 a w2 tail : jsstring) :
  blank w1 -> blank w2 ->
  startsWith a (js "npt:") = false ->
  (tail = [] \/ exists t, tail = ch "," :: t) ->
  cleanValueOf (w1 ++ a ++ w2 ++ tail) = w1 ++ a ++ w2 ++ tail.
Proof.
  intros H1 H2 Ha T. unfold cleanValueOf.
  assert (E : startsWith (w1 ++ a ++ w2 ++ tail) (js "npt:") = false);
    [|rewrite E; reflexivity].
  destruct w1 as [|c w1].
  - cbn [app]. apply startsWith_app_false; [exact Ha|].
    pose proof (blank_head_not_prefix w2 tail H2) as B.
    destruct (w2 ++ tail) as [|r l] eqn:El; [exact I|].
    destruct B as [B|[B|B]].
    + subst tail. rewrite app_nil_r in El. subst w2.
      inversion H2. apply white_not_in_prefix. assumption.
    + destruct T as [->|(t & ->)].
      * rewrite app_nil_r in El. subst w2.
        inversion H2. apply white_not_in_prefix. assumption.
      * cbn [hd] in B. subst r. notin.
    + apply white_not_in_prefix. exact B.
  - inversion H1 as [|? ? Hc _]. subst.
    change (js "npt:") with [ch "n"; ch "p"; ch "t"; ch ":"].
    cbn [app startsWith].
    destruct (N.eqb_spec c (ch "n")) as [->|_]; [discriminate Hc|reflexivity].
Qed.

Lemma clean_npt (x : jsstring) : cleanValueOf (js "npt:" ++ x) = x.
Proof. destruct x; reflexivity. Qed.

End Parts.

(** C10: each comma-separated part of the value is trimmed before it is
    parsed as a time: white space around the parts does not change the
    result, for one part and for two, so [#t= 10 , 20] gives the window of
    [#t=10,20]; a part of white space only ([a] or [b] empty below) counts
    as an empty part.  The parts are those of the value after the removal of
    an [npt:] prefix, which is recognised only at the very start of the
    value: the value below either carries the prefix or does not start with
    it. *)
Theorem parts_are_trimmed (pre a b w1 w2 w3 w4 : jsstring) :
  ~ In (ch "#") pre ->
  blank w1 -> blank w2 -> blank w3 -> blank w4 ->
  ~ In (ch ",") a -> ~ In (ch ",") b ->
  ~ In (ch "&") a -> ~ In (ch "&") b ->
  startsWith a (js "npt:") = false ->
  parseMediaFragment (pre ++ js "#t=" ++ w1 ++ a ++ w2 ++ js "," ++ w3 ++ b ++ w4)
    = parseMediaFragment (pre ++ js "#t=" ++ a ++ js "," ++ b)
  /\ parseMediaFragment (pre ++ js "#t=" ++ w1 ++ a ++ w2)
     = parseMediaFragment (pre ++ js "#t=" ++ a)
  /\ parseMediaFragment
       (pre ++ js "#t=" ++ js "npt:" ++ w1 ++ a ++ w2 ++ js "," ++ w3 ++ b ++ w4)
     = parseMediaFragment (pre ++ js "#t=" ++ js "npt:" ++ a ++ js "," ++ b)
  /\ parseMediaFragment (pre ++ js "#t=" ++ js "npt:" ++ w1 ++ a ++ w2)
     = parseMediaFragment (pre ++ js "#t=" ++ js "npt:" ++ a)
  /\ trim (w1 ++ a ++ w2) = trim a
  /\ trim w1 = trim [].
Proof.
  intros H B1 B2 B3 B4 Ca Cb Aa Ab Na.
  assert (Wc : forall w, blank w -> ~ In (ch ",") w)
    by (intros w; apply blank_not_in; reflexivity).
  assert (Wa : forall w, blank w -> ~ In (ch "&") w)
    by (intros w; apply blank_not_in; reflexivity).
  assert (NI : forall (c : N) (x y : jsstring),
            ~ In c x -> ~ In c y -> ~ In c (x ++ y))
    by (intros c x y Hx Hy Hin; apply in_app_or in Hin; tauto).
  assert (NC : forall (c d : N) (y : jsstring),
            d <> c -> ~ In c y -> ~ In c (d :: y))
    by (intros c d y Hd Hy [E|Hin]; [congruence|tauto]).
  assert (P : forall x, ~ In (ch "&") x -> ~ In (ch "&") (js "npt:" ++ x))
    by (intros x Hx; apply NI; [notin|exact Hx]).
  assert (S2 : split (w1 ++ a ++ w2 ++ ch "," :: w3 ++ b ++ w4) (ch ",")
               = [w1 ++ a ++ w2; w3 ++ b ++ w4]).
  { replace (w1 ++ a ++ w2 ++ ch "," :: w3 ++ b ++ w4)
      with ((w1 ++ a ++ w2) ++ ch "," :: (w3 ++ b ++ w4))
      by (rewrite <- !app_assoc; reflexivity).
    rewrite split_app by auto 6. rewrite split_none by auto 6. reflexivity. }
  assert (S2' : split (a ++ ch "," :: b) (ch ",") = [a; b]).
  { rewrite split_app by exact Ca. rewrite split_none by exact Cb. reflexivity. }
  assert (S1 : split (w1 ++ a ++ w2) (ch ",") = [w1 ++ a ++ w2])
    by (apply split_none; auto 6).
  assert (S1' : split a (ch ",") = [a]) by (apply split_none; exact Ca).
  assert (A2 : ~ In (ch "&") (w1 ++ a ++ w2 ++ ch "," :: w3 ++ b ++ w4))
    by (repeat first [apply NI | apply NC; [discriminate|]]; auto).
  assert (A2' : ~ In (ch "&") (a ++ ch "," :: b))
    by (apply NI; [exact Aa|]; apply NC; [discriminate|exact Ab]).
  assert (A1 : ~ In (ch "&") (w1 ++ a ++ w2)) by auto 6.
  change (js ",") with [ch ","]. cbn [app].
  split; [|split; [|split; [|split; [|split]]]].
  - rewrite !parse_value by assumption.
    f_equal. apply trimmed_parts_determine.
    rewrite (clean_padded w1 a w2 (ch "," :: w3 ++ b ++ w4) B1 B2 Na)
      by (right; eexists; reflexivity).
    pose proof (clean_padded [] a [] (ch "," :: b) (Forall_nil _)
                  (Forall_nil _) Na) as E.
    cbn [app] in E. rewrite E by (right; eexists; reflexivity).
    rewrite S2, S2'. cbn [map]. rewrite !trim_pad by assumption. reflexivity.
  - rewrite !parse_value by assumption.
    f_equal. apply trimmed_parts_determine.
    pose proof (clean_padded w1 a w2 [] B1 B2 Na (or_introl eq_refl)) as E.
    rewrite !app_nil_r in E. rewrite E.
    pose proof (clean_padded [] a [] [] (Forall_nil _) (Forall_nil _) Na
                  (or_introl eq_refl)) as E'.
    cbn [app] in E'. rewrite !app_nil_r in E'. rewrite E'.
    rewrite S1, S1'. cbn [map]. rewrite trim_pad by assumption. reflexivity.
  - rewrite !parse_value by (try apply P; assumption).
    f_equal. apply trimmed_parts_determine. rewrite !clean_npt.
    rewrite S2, S2'. cbn [map]. rewrite !trim_pad by assumption. reflexivity.
  - rewrite !parse_value by (try apply P; assumption).
    f_equal. apply trimmed_parts_determine. rewrite !clean_npt.
    rewrite S1, S1'. cbn [map]. rewrite trim_pad by assumption. reflexivity.
  - apply trim_pad; assumption.
  - apply trim_blank. exact B1.
Qed.

Lemma parts_are_trimmed_witness :
  parseMediaFragment (js "http://example.com/video.m3u8#t= 10 , 20")
  = parseMediaFragment (js "http://example.com/video.m3u8#t=10,20").
Proof.
  refine (proj1 (parts_are_trimmed (js "http://example.com/video.m3u8")
            (js "10") (js "20") (js " ") (js " ") (js " ") []
            _ _ _ _ _ _ _ _ _ _)).
  - notin.
  - repeat constructor.
  - repeat constructor.
  - repeat constructor.
  - constructor.
  - notin.
  - notin.
  - notin.
  - notin.
  - reflexivity.
Defined.

(** ** Decimal numerals *)

Section Numerals.

Lemma isDigit_cases (c : N) :
  isDigit c = true ->
  (c = 48 \/ c = 49 \/ c = 50 \/ c = 51 \/ c = 52 \/ c = 53 \/ c = 54
   \/ c = 55 \/ c = 56 \/ c = 57)%N.
Proof.
  unfold isDigit. intros H. apply andb_prop in H as [L U].
  apply N.leb_le in L, U. lia.
Qed.

Ltac digit_cases H :=
  apply isDigit_cases in H;
  repeat (destruct H as [H|H]; [subst; try reflexivity; try discriminate|]);
  subst; try reflexivity; try discriminate.

Lemma digit_not_white (c : N) : isDigit c = true -> isWhiteSpace c = false.
Proof. intros H. digit_cases H. Qed.

Lemma digit_not_colon (c : N) : isDigit c = true -> c <> ch ":".
Proof. intros H. digit_cases H. Qed.

Lemma scanDigits_app (ds rest : jsstring) (acc : N) (n : nat) :
  digits ds ->
  scanDigits (ds ++ rest) acc n
  = scanDigits rest (decimalValue ds acc) (n + length ds).
Proof.
  intros H. revert acc n. induction H as [|c ds Hc _ IH]; intros acc n.
  - cbn [app decimalValue fold_left length]. rewrite Nat.add_0_r. reflexivity.
  - cbn [app scanDigits]. rewrite Hc, IH. cbn [decimalValue fold_left length].
    rewrite Nat.add_succ_r. reflexivity.
Qed.

Lemma scanDigits_all (ds : jsstring) (acc : N) (n : nat) :
  digits ds ->
  scanDigits ds acc n = (decimalValue ds acc, n + length ds, []).
Proof.
  intros H. rewrite <- (app_nil_r ds) at 1. rewrite scanDigits_app by exact H.
  reflexivity.
Qed.



(** What the test of the seconds format lets through has only digits and at
    most one dot. *)
Lemma skipDigits_prefix (s : jsstring) :
  exists ds, digits ds /\ s = ds ++ skipDigits s.
Proof.
  induction s as [|c s (ds & D & E)]; [exists []; split; [constructor|reflexivity]|].
  cbn [skipDigits]. destruct (isDigit c) eqn:Hc.
  - exists (c :: ds). split; [constructor; assumption|].
    cbn [app]. rewrite <- E. reflexivity.
  - exists []. split; [constructor|reflexivity].
Qed.

Lemma digits_no_colon (ds : jsstring) : digits ds -> ~ In (ch ":") ds.
Proof.
  intros D Hin. unfold digits in D. rewrite Forall_forall in D.
  apply (digit_not_colon (ch ":") (D _ Hin)). reflexivity.
Qed.

Lemma nptSecTest_no_colon (s : jsstring) :
  nptSecTest s = true -> ~ In (ch ":") s.
Proof.
  unfold nptSecTest. intros H. apply andb_prop in H as [_ H].
  destruct (skipDigits_prefix s) as (ds & D & E).
  destruct (skipDigits s) as [|c r] eqn:K.
  - rewrite app_nil_r in E. subst s. apply digits_no_colon. exact D.
  - apply andb_prop in H as [H R]. apply andb_prop in H as [C _].
    apply N.eqb_eq in C. subst c.
    destruct (skipDigits_prefix r) as (fs & F & E').
    destruct (skipDigits r); [|discriminate R].
    rewrite app_nil_r in E'. subst r. rewrite E. intros Hin.
    apply in_app_or in Hin as [Hin|[Hin|Hin]].
    + exact (digits_no_colon ds D Hin).
    + discriminate Hin.
    + exact (digits_no_colon fs F Hin).
Qed.



Lemma digit_not_Infinity (d : N) (s : jsstring) :
  isDigit d = true ->
  startsWith (d :: s) (js "Infinity") = false.
Proof. intros H. digit_cases H. Qed.

(** [parseFloat] of a numeral without fraction. *)
Lemma parseFloat_integer (d : N) (ds : jsstring) :
  digits (d :: ds) ->
  parseFloat (d :: ds) = decimalToNumber false (decimalValue (d :: ds) 0) 0.
Proof.
  intros D. pose proof (Forall_inv D) as Hd. unfold parseFloat.
  rewrite trimStart_head by (apply digit_not_white; exact Hd).
  replace (d =? ch "-")%N with false by (digit_cases Hd).
  replace (d =? ch "+")%N with false by (digit_cases Hd).
  unfold scanUnsignedDecimal.
  rewrite (digit_not_Infinity d ds Hd).
  rewrite scanDigits_all by exact D. reflexivity.
Qed.

(** [parseFloat] of a numeral with a fraction. *)
Lemma parseFloat_fraction (d f : N) (ds fs : jsstring) :
  digits (d :: ds) -> digits (f :: fs) ->
  parseFloat ((d :: ds) ++ ch "." :: f :: fs)
  = decimalToNumber false (decimalValue ((d :: ds) ++ f :: fs) 0)
      (- Z.of_nat (length (f :: fs))).
Proof.
  intros D F. pose proof (Forall_inv D) as Hd. unfold parseFloat.
  cbn [app]. rewrite trimStart_head by (apply digit_not_white; exact Hd).
  replace (d =? ch "-")%N with false by (digit_cases Hd).
  replace (d =? ch "+")%N with false by (digit_cases Hd).
  unfold scanUnsignedDecimal.
  rewrite (digit_not_Infinity d _ Hd).
  change (d :: ds ++ ch "." :: f :: fs) with ((d :: ds) ++ ch "." :: f :: fs).
  rewrite scanDigits_app by exact D.
  cbn [scanDigits]. change (isDigit (ch ".")) with false. cbn iota.
  rewrite N.eqb_refl. rewrite scanDigits_all by exact F.
  change (d :: ds ++ f :: fs) with ((d :: ds) ++ f :: fs).
  replace (decimalValue ((d :: ds) ++ f :: fs) 0)
    with (decimalValue (f :: fs) (decimalValue (d :: ds) 0))
    by (unfold decimalValue; rewrite fold_left_app; reflexivity).
  reflexivity.
Qed.





End Numerals.

(** ** The colon formats *)

Section ColonFormats.

(** The three tests [isNaN(x) || x < 0 || x >= hi] all fail exactly when
    [0 <= x] and [x < hi] hold. *)
Lemma range_test (x hi : Number) :
  isNaN hi = false ->
  (isNaN x = false /\ num_lt x (num 0) = false /\ num_ge x hi = false)
  <-> (num_ge x (num 0) = true /\ num_lt x hi = true).
Proof.
  intros Hhi. split.
  - intros (Nx & L & G).
    rewrite (num_ge_negb_lt x (num 0) Nx eq_refl), L.
    rewrite (num_ge_negb_lt x hi Nx Hhi) in G.
    destruct (num_lt x hi); [split; reflexivity|discriminate G].
  - intros (G & L). destruct (num_ge_not_nan x (num 0) G) as [Nx _].
    rewrite (num_ge_negb_lt x (num 0) Nx eq_refl) in G.
    rewrite (num_ge_negb_lt x hi Nx Hhi), L.
    destruct (num_lt x (num 0)); [discriminate G|repeat split; assumption].
Qed.

(** The two tests [isNaN(x) || x < 0] both fail exactly when [0 <= x]. *)
Lemma nonneg_test (x : Number) :
  (isNaN x = false /\ num_lt x (num 0) = false) <-> num_ge x (num 0) = true.
Proof.
  split.
  - intros (Nx & L). rewrite (num_ge_negb_lt x (num 0) Nx eq_refl), L.
    reflexivity.
  - intros G. destruct (num_ge_not_nan x (num 0) G) as [Nx _].
    rewrite (num_ge_negb_lt x (num 0) Nx eq_refl) in G.
    destruct (num_lt x (num 0)); [discriminate G|split; [exact Nx|reflexivity]].
Qed.

Lemma colon_not_seconds (a b : jsstring) :
  nptSecTest (a ++ ch ":" :: b) = false.
Proof.
  destruct (nptSecTest (a ++ ch ":" :: b)) eqn:T; [|reflexivity].
  exfalso. apply (nptSecTest_no_colon _ T).
  apply in_or_app. right. left. reflexivity.
Qed.

Lemma truthy_colon (a b : jsstring) : truthy (a ++ ch ":" :: b) = true.
Proof. destruct a; reflexivity. Qed.

(** [parseNptTime] on two groups. *)
Lemma parseNptTime_two (mm ss : jsstring) :
  ~ In (ch ":") mm -> ~ In (ch ":") ss ->
  trim (mm ++ ch ":" :: ss) = mm ++ ch ":" :: ss ->
  parseNptTime (mm ++ ch ":" :: ss) =
  let minutes := parseFloat mm in
  let seconds := parseFloat ss in
  if isNaN minutes || isNaN seconds
     || num_lt minutes (num 0) || num_ge minutes (num 60)
     || num_lt seconds (num 0) || num_ge seconds (num 60)
  then None
  else Some (num_add (num_mul minutes (num 60)) seconds).
Proof.
  intros Hm Hs T. unfold parseNptTime. rewrite T.
  rewrite truthy_colon, colon_not_seconds. cbn [negb].
  rewrite split_app by exact Hm. rewrite split_none by exact Hs.
  reflexivity.
Qed.

(** [parseNptTime] on three groups. *)
Lemma parseNptTime_three (hh mi se : jsstring) :
  ~ In (ch ":") hh -> ~ In (ch ":") mi -> ~ In (ch ":") se ->
  trim (hh ++ ch ":" :: mi ++ ch ":" :: se) = hh ++ ch ":" :: mi ++ ch ":" :: se ->
  parseNptTime (hh ++ ch ":" :: mi ++ ch ":" :: se) =
  let hours := parseFloat hh in
  let minutes := parseFloat mi in
  let seconds := parseFloat se in
  if isNaN hours || isNaN minutes || isNaN seconds
     || num_lt hours (num 0) || num_lt minutes (num 0) || num_lt seconds (num 0)
     || num_ge minutes (num 60) || num_ge seconds (num 60)
  then None
  else Some (num_add (num_add (num_mul hours (num 3600))
                              (num_mul minutes (num 60))) seconds).
Proof.
  intros Hh Hm Hs T. unfold parseNptTime. rewrite T.
  rewrite truthy_colon, colon_not_seconds. cbn [negb].
  rewrite split_app by exact Hh. rewrite split_app by exact Hm.
  rewrite split_none by exact Hs. reflexivity.
Qed.

(** The rejection test of the two-group format. *)
Lemma two_groups_accepted (m s : Number) :
  isNaN m || isNaN s || num_lt m (num 0) || num_ge m (num 60)
    || num_lt s (num 0) || num_ge s (num 60) = false
  <-> num_ge m (num 0) = true /\ num_lt m (num 60) = true
      /\ num_ge s (num 0) = true /\ num_lt s (num 60) = true.
Proof.
  rewrite !orb_false_iff.
  pose proof (range_test m (num 60) eq_refl).
  pose proof (range_test s (num 60) eq_refl). tauto.
Qed.

(** The rejection test of the three-group format. *)
Lemma three_groups_accepted (h m s : Number) :
  isNaN h || isNaN m || isNaN s
    || num_lt h (num 0) || num_lt m (num 0) || num_lt s (num 0)
    || num_ge m (num 60) || num_ge s (num 60) = false
  <-> num_ge h (num 0) = true
      /\ num_ge m (num 0) = true /\ num_lt m (num 60) = true
      /\ num_ge s (num 0) = true /\ num_lt s (num 60) = true.
Proof.
  rewrite !orb_false_iff.
  pose proof (nonneg_test h).
  pose proof (range_test m (num 60) eq_refl).
  pose proof (range_test s (num 60) eq_refl). tauto.
Qed.

End ColonFormats.



(** ** Examples *)

(** C7: the basic shapes.  [#t=10,20] gives 10 to 20; [#t=10] gives a start
    of 10 and no end; [#t=,20] gives an end of 20 and no start; and the
    [npt:] prefix is removed, so [#t=npt:15,25] gives 15 to 25. *)
Theorem basic_shapes :
  parseMediaFragment (js "http://example.com/video.m3u8#t=10,20")
  = Returns {| temporalFragment :=
      Some {| start := Some (num 10); end_ := Some (num 20) |} |}
  /\ parseMediaFragment (js "http://example.com/video.m3u8#t=10")
     = Returns {| temporalFragment :=
         Some {| start := Some (num 10); end_ := None |} |}
  /\ parseMediaFragment (js "http://example.com/video.m3u8#t=,20")
     = Returns {| temporalFragment :=
         Some {| start := None; end_ := Some (num 20) |} |}
  /\ parseMediaFragment (js "http://example.com/video.m3u8#t=npt:15,25")
     = Returns {| temporalFragment :=
         Some {| start := Some (num 15); end_ := Some (num 25) |} |}.
Proof. repeat split; vm_compute; reflexivity. Qed.

(** C3: the claim fails on the code.  A colon group is read by [parseFloat],
    which reads the longest numeric prefix and ignores what follows it, so
    the bound [1x:30] is accepted as 1 minute 30 seconds although it has
    non-numeric content; the seconds format, tested by a regular expression,
    rejects [90x].  Groups out of range are rejected as the claim says. *)
Theorem lenient_colon_group :
  parseMediaFragment (js "http://example.com/video.m3u8#t=1x:30")
  = Returns {| temporalFragment :=
      Some {| start := Some (num 90); end_ := None |} |}
  /\ parseMediaFragment (js "http://example.com/video.m3u8#t=1x:30,2:00")
     = Returns {| temporalFragment :=
         Some {| start := Some (num 90); end_ := Some (num 120) |} |}
  /\ parseMediaFragment (js "http://example.com/video.m3u8#t=90x")
     = Returns absent
  /\ parseMediaFragment (js "http://example.com/video.m3u8#t=60:00,70:00")
     = Returns absent
  /\ parseMediaFragment (js "http://example.com/video.m3u8#t=00:60,00:65")
     = Returns absent.
Proof. repeat split; vm_compute; reflexivity. Qed.

(** ** The boundary enforcer *)

Import Enforcer.

Section EnforcerFacts.

Variable notifyWhenPaused : bool.

Local Abbreviation update := (onPositionUpdate notifyWhenPaused).
Local Abbreviation run := (feed notifyWhenPaused).

(** Once the latch has fired, or when it is not armed, updates do nothing. *)
Lemma update_inert (st : State) (position : Number) (paused : bool) :
  armed (latch st) = false \/ fired (latch st) = true ->
  update st position paused = (st, []).
Proof.
  unfold onPositionUpdate. intros [H|H]; rewrite H; [reflexivity|].
  rewrite orb_true_r. reflexivity.
Qed.

Lemma run_inert (st : State) (updates : list (Number * bool)) :
  armed (latch st) = false \/ fired (latch st) = true ->
  run st updates = (st, []).
Proof.
  intros H. induction updates as [|[position paused] rest IH]; [reflexivity|].
  cbn [feed]. rewrite update_inert by exact H. rewrite IH. reflexivity.
Qed.

Lemma run_app (st : State) (us vs : list (Number * bool)) :
  run st (us ++ vs) =
  let '(st1, acts1) := run st us in
  let '(st2, acts2) := run st1 vs in
  (st2, acts1 ++ acts2).
Proof.
  revert st. induction us as [|[position paused] us IH]; intros st.
  - cbn [app feed]. destruct (run st vs). reflexivity.
  - cbn [app feed]. destruct (update st position paused) as [st1 acts1].
    rewrite IH. destruct (run st1 us) as [st2 acts2].
    destruct (run st2 vs) as [st3 acts3]. rewrite app_assoc. reflexivity.
Qed.

(** Positions short of the end leave an armed latch as it is. *)
Lemma run_short (w : TemporalFragment) (e : Number)
  (updates : list (Number * bool)) :
  end_ w = Some e ->
  (forall u, In u updates -> num_ge (fst u) e = false) ->
  run (onWindowRegistered (Some w)) updates = (onWindowRegistered (Some w), []).
Proof.
  intros E H. induction updates as [|[position paused] rest IH]; [reflexivity|].
  cbn [feed].
  assert (U : update (onWindowRegistered (Some w)) position paused
              = (onWindowRegistered (Some w), [])).
  { unfold onPositionUpdate, onWindowRegistered, hasEnd. cbn [latch armed fired window].
    rewrite E. cbn [negb orb].
    pose proof (H (position, paused) (or_introl eq_refl)) as G.
    cbn [fst] in G. rewrite G. reflexivity. }
  rewrite U, IH by (intros u Hu; apply H; right; exact Hu). reflexivity.
Qed.

(** An update asks for at most one pause and one notification, and when it
    asks for any the latch has fired. *)
Lemma update_once (st : State) (position : Number) (paused : bool) :
  update st position paused = (st, [])
  \/ exists acts,
       update st position paused = (fire st, acts)
       /\ pauses acts <= 1 /\ notifications acts <= 1.
Proof.
  unfold onPositionUpdate.
  destruct (negb (armed (latch st)) || fired (latch st)); [left; reflexivity|].
  destruct (window st) as [w|]; [|left; reflexivity].
  destruct (end_ w) as [e|]; [|left; reflexivity].
  destruct (num_ge position e); [|left; reflexivity].
  right. destruct paused; [destruct notifyWhenPaused|];
    eexists; (split; [reflexivity|]); cbn; lia.
Qed.

Lemma run_once (st : State) (updates : list (Number * bool)) :
  pauses (snd (run st updates)) <= 1
  /\ notifications (snd (run st updates)) <= 1.
Proof.
  revert st. induction updates as [|[position paused] rest IH]; intros st.
  - cbn. lia.
  - cbn [feed].
    destruct (update_once st position paused) as [E|(acts & E & P & Q)];
      rewrite E.
    + specialize (IH st). destruct (run st rest). exact IH.
    + rewrite run_inert by (right; reflexivity). cbn [snd].
      rewrite app_nil_r. split; assumption.
Qed.

End EnforcerFacts.

(** C6, as stated, fails on the enforcer of section 4.2: when the media is
    already paused at the first update that reports 20, the latch fires and
    no pause is ever requested, under either reading of the section. *)
Lemma paused_at_boundary_no_pause :
  pauses (snd (feed true (onWindowRegistered (Some window20))
                 [(num 19, false); (num 20, true); (num 21, false)])) = 0
  /\ pauses (snd (feed false (onWindowRegistered (Some window20))
                    [(num 19, false); (num 20, true); (num 21, false)])) = 0.
Proof. split; vm_compute; reflexivity. Qed.

(** C6, amended: with a window that has an end bound (20 in the claim), when
    the first update at or beyond the end is observed while the media is not
    already paused, the whole sequence causes exactly one pause request and
    exactly one notification, however many later updates are at or beyond
    the end; when the media is already paused at that first update, the
    latch fires and no pause is requested, then or later; any sequence
    whatever causes at most one of each; and with a window that has no end
    bound no update causes a pause request. *)
Theorem boundary_fires_once (notifyWhenPaused : bool)
  (w : TemporalFragment) (e p : Number) (w' : option TemporalFragment)
  (before after updates : list (Number * bool)) :
  end_ w = Some e ->
  (forall u, In u before -> num_ge (fst u) e = false) ->
  num_ge p e = true ->
  hasEnd w' = false ->
  (pauses (snd (feed notifyWhenPaused (onWindowRegistered (Some w))
                  (before ++ (p, false) :: after))) = 1
   /\ notifications (snd (feed notifyWhenPaused (onWindowRegistered (Some w))
                            (before ++ (p, false) :: after))) = 1)
  /\ pauses (snd (feed notifyWhenPaused (onWindowRegistered (Some w))
                    (before ++ (p, true) :: after))) = 0
  /\ (pauses (snd (feed notifyWhenPaused (onWindowRegistered (Some w)) updates)) <= 1
      /\ notifications
           (snd (feed notifyWhenPaused (onWindowRegistered (Some w)) updates)) <= 1)
  /\ pauses (snd (feed notifyWhenPaused (onWindowRegistered w') updates)) = 0.
Proof.
  intros E B P N.
  assert (U : forall paused,
    onPositionUpdate notifyWhenPaused (onWindowRegistered (Some w)) p paused
    = (fire (onWindowRegistered (Some w)),
       if paused
       then (if notifyWhenPaused then [BoundaryReached w] else [])
       else [PauseRequest; BoundaryReached w])).
  { intros paused. unfold onPositionUpdate, onWindowRegistered, hasEnd.
    cbn [latch armed fired window]. rewrite E. cbn [negb orb]. rewrite P.
    destruct paused; reflexivity. }
  split; [|split; [|split]].
  - rewrite run_app, (run_short notifyWhenPaused w e before E B).
    cbn [feed]. rewrite U, run_inert by (right; reflexivity).
    split; reflexivity.
  - rewrite run_app, (run_short notifyWhenPaused w e before E B).
    cbn [feed]. rewrite U, run_inert by (right; reflexivity).
    destruct notifyWhenPaused; reflexivity.
  - apply run_once.
  - rewrite run_inert; [reflexivity|]. left. exact N.
Qed.

Lemma boundary_fires_once_witness :
  pauses (snd (feed false (onWindowRegistered (Some window20))
                 [(num 10, false); (num 19, false); (num 20, false);
                  (num 20, true); (num 21, false)])) = 1
  /\ notifications (snd (feed false (onWindowRegistered (Some window20))
                 [(num 10, false); (num 19, false); (num 20, false);
                  (num 20, true); (num 21, false)])) = 1.
Proof.
  refine (proj1 (boundary_fires_once false window20 (num 20) (num 20) None
            [(num 10, false); (num 19, false)]
            [(num 20, true); (num 21, false)] [] eq_refl _ eq_refl eq_refl)).
  each_part.
Defined.

(** * Further properties of the parser *)

(** ** Numbers that are not negative *)

(** The numbers [x] with [x >= 0]: a zero of either sign, a positive finite
    number or positive infinity. *)
Definition nonNegative (x : Number) : Prop :=
  match x with
  | S754_zero _ => True
  | S754_infinity s | S754_finite s _ _ => s = false
  | S754_nan => False
  end.

Section NonNegative.

Lemma num_ge_zero (x : Number) :
  num_ge x (num 0) = true <-> nonNegative x.
Proof.
  change (num 0) with (S754_zero false).
  destruct x as [s|s| |s m e]; cbn; try destruct s; cbn;
    split; intros H; try reflexivity; try discriminate H; try exact I;
    contradiction.
Qed.

Lemma hasSign_nonNegative (x : Number) : hasSign false x -> nonNegative x.
Proof. destruct x; cbn; auto. Qed.

(** The product of a non-negative number and a positive finite constant. *)
Lemma num_mul_nonNegative (x : Number) (m : positive) (e : Z) :
  nonNegative x -> nonNegative (num_mul x (S754_finite false m e)).
Proof.
  destruct x as [s|s| |s mx ex]; cbn [nonNegative]; intros H;
    try contradiction; subst; cbn [num_mul SFmul xorb nonNegative]; auto.
  apply hasSign_nonNegative, binary_round_aux_sign. lia.
Qed.

(** The sum of two non-negative numbers. *)
Lemma num_add_nonNegative (x y : Number) :
  nonNegative x -> nonNegative y -> nonNegative (num_add x y).
Proof.
  destruct x as [sx|sx| |sx mx ex], y as [sy|sy| |sy my ey];
    cbn [nonNegative]; intros Hx Hy; try contradiction; subst;
    unfold num_add; cbn [SFadd nonNegative]; auto.
  - destruct sx, sy; exact I.
  - cbn [cond_Zopp Z.add]. cbn [binary_normalize].
    apply hasSign_nonNegative, binary_round_sign.
Qed.

(** Below a non-negative number there is nothing that is [>= 0], so what is
    strictly above one is strictly positive. *)
Lemma above_nonNegative (x y : Number) :
  nonNegative x -> num_lt x y = true -> num_lt (num 0) y = true.
Proof.
  change (num 0) with (S754_zero false).
  destruct x as [sx|sx| |sx mx ex], y as [sy|sy| |sy my ey];
    cbn [nonNegative]; intros Hx; try contradiction; subst;
    cbn; try destruct sx; try destruct sy; cbn; intros H;
    try reflexivity; try discriminate H.
Qed.

End NonNegative.

(** ** More on trimming *)

Section TrimStructure.

Lemma trimStart_decompose (s : jsstring) :
  exists w, blank w /\ s = w ++ trimStart s.
Proof.
  induction s as [|c s (w & B & E)]; [exists []; split; [constructor|reflexivity]|].
  cbn [trimStart]. destruct (isWhiteSpace c) eqn:Hc.
  - exists (c :: w). split; [constructor; assumption|].
    cbn [app]. rewrite <- E. reflexivity.
  - exists []. split; [constructor|reflexivity].
Qed.

Lemma trimEnd_decompose (s : jsstring) :
  exists w, blank w /\ s = trimEnd s ++ w.
Proof.
  destruct (trimStart_decompose (rev s)) as (w & B & E).
  exists (rev w). split; [apply blank_rev; exact B|].
  unfold trimEnd. rewrite <- rev_app_distr, <- E, rev_involutive. reflexivity.
Qed.

(** A string is its trimmed form between two runs of white space. *)
Lemma trim_decompose (s : jsstring) :
  exists w1 w2, blank w1 /\ blank w2 /\ s = w1 ++ trim s ++ w2.
Proof.
  destruct (trimStart_decompose s) as (w1 & B1 & E1).
  destruct (trimEnd_decompose (trimStart s)) as (w2 & B2 & E2).
  exists w1, w2. repeat split; try assumption.
  unfold trim. rewrite <- E2. exact E1.
Qed.

Lemma trim_idempotent (s : jsstring) : trim (trim s) = trim s.
Proof.
  destruct (trim_decompose s) as (w1 & w2 & B1 & B2 & E).
  rewrite E at 2. rewrite trim_pad by assumption. reflexivity.
Qed.


Lemma count_occ_blank (w : jsstring) (c : N) :
  isWhiteSpace c = false -> blank w -> count_occ N.eq_dec w c = 0.
Proof.
  intros Hc B. apply count_occ_not_In. apply blank_not_in; assumption.
Qed.

(** Trimming removes no character that is not white space. *)
Lemma count_occ_trim (s : jsstring) (c : N) :
  isWhiteSpace c = false ->
  count_occ N.eq_dec (trim s) c = count_occ N.eq_dec s c.
Proof.
  intros Hc. destruct (trim_decompose s) as (w1 & w2 & B1 & B2 & E).
  rewrite E at 2. rewrite !count_occ_app.
  rewrite (count_occ_blank w1 c Hc B1), (count_occ_blank w2 c Hc B2). lia.
Qed.

End TrimStructure.

(** ** More on [parseNptTime] *)

Section NptTimeFacts.

(** What the regular expression of the seconds format accepts: a numeral of
    digits, or two of them around a dot. *)
Lemma nptSecTest_shape (s : jsstring) :
  nptSecTest s = true ->
  exists d ds, digits (d :: ds) /\
    (s = d :: ds \/
     exists f fs, digits (f :: fs) /\ s = (d :: ds) ++ ch "." :: f :: fs).
Proof.
  unfold nptSecTest. intros H. apply andb_prop in H as [Hd H].
  destruct s as [|d s]; [discriminate Hd|]. cbn [headIsDigit] in Hd.
  destruct (skipDigits_prefix s) as (ds & D & E).
  assert (K : skipDigits (d :: s) = skipDigits s)
    by (cbn [skipDigits]; rewrite Hd; reflexivity).
  rewrite K in H. exists d, ds. split; [constructor; assumption|].
  destruct (skipDigits s) as [|c r].
  - left. rewrite app_nil_r in E. subst s. reflexivity.
  - right. apply andb_prop in H as [H R]. apply andb_prop in H as [C Hf].
    apply N.eqb_eq in C. subst c.
    destruct r as [|f r]; [discriminate Hf|]. cbn [headIsDigit] in Hf.
    destruct (skipDigits_prefix r) as (fs & F & E').
    assert (K' : skipDigits (f :: r) = skipDigits r)
      by (cbn [skipDigits]; rewrite Hf; reflexivity).
    rewrite K' in R. destruct (skipDigits r); [|discriminate R].
    rewrite app_nil_r in E'. subst r.
    exists f, fs. split; [constructor; assumption|].
    cbn [app]. rewrite E at 1. reflexivity.
Qed.

Lemma nptSecTest_nonNegative (s : jsstring) :
  nptSecTest s = true -> nonNegative (parseFloat s).
Proof.
  intros H. apply nptSecTest_shape in H as (d & ds & D & [->|(f & fs & F & ->)]).
  - rewrite parseFloat_integer by exact D.
    apply hasSign_nonNegative, decimalToNumber_sign.
  - rewrite parseFloat_fraction by assumption.
    apply hasSign_nonNegative, decimalToNumber_sign.
Qed.

Lemma times_60_nonNegative (x : Number) :
  nonNegative x -> nonNegative (num_mul x (num 60)).
Proof.
  intros H. let c := eval vm_compute in (num 60) in change (num 60) with c.
  apply num_mul_nonNegative. exact H.
Qed.

Lemma times_3600_nonNegative (x : Number) :
  nonNegative x -> nonNegative (num_mul x (num 3600)).
Proof.
  intros H. let c := eval vm_compute in (num 3600) in change (num 3600) with c.
  apply num_mul_nonNegative. exact H.
Qed.

(** The value of a time string is never NaN and never negative. *)
Lemma parseNptTime_nonNegative (s : jsstring) (v : Number) :
  parseNptTime s = Some v -> nonNegative v.
Proof.
  unfold parseNptTime.
  destruct (truthy (trim s)); cbn [negb]; [|discriminate].
  destruct (nptSecTest (trim s)) eqn:T.
  - intros [= <-]. apply nptSecTest_nonNegative. exact T.
  - destruct (split (trim s) (ch ":")) as [|a [|b [|c [|d l]]]];
      cbn [length Nat.eqb index nth_error ToString]; try discriminate.
    + match goal with |- context [if ?b then None else _] =>
        destruct b eqn:B end; [discriminate|].
      intros [= <-].
      apply two_groups_accepted in B as (G1 & _ & G2 & _).
      apply num_ge_zero in G1, G2.
      apply num_add_nonNegative; [apply times_60_nonNegative|]; assumption.
    + match goal with |- context [if ?b then None else _] =>
        destruct b eqn:B end; [discriminate|].
      intros [= <-].
      apply three_groups_accepted in B as (G0 & G1 & _ & G2 & _).
      apply num_ge_zero in G0, G1, G2.
      repeat apply num_add_nonNegative;
        [apply times_3600_nonNegative|apply times_60_nonNegative|];
        assumption.
Qed.

Lemma add_zero_left (y : Number) :
  hasSign false y -> num_add (S754_zero false) y = y.
Proof. destruct y as [s|s| |s m e]; cbn; intros H; subst; auto; contradiction. Qed.

Lemma times_60_sign (x : Number) :
  hasSign false x -> hasSign false (num_mul x (num 60)).
Proof.
  intros H. let c := eval vm_compute in (num 60) in change (num 60) with c.
  destruct x as [s|s| |s m e]; cbn [hasSign] in H; try contradiction; subst;
    cbn [num_mul SFmul xorb hasSign]; auto.
  apply binary_round_aux_sign. lia.
Qed.

End NptTimeFacts.

(** X1: the value [parseNptTime] gives for a time string is never NaN and
    never negative, so the tests [>= 0] of [parseMediaFragment] never drop a
    bound that was parsed. *)
Theorem parseNptTime_never_negative (s : jsstring) (v : Number) :
  parseNptTime s = Some v ->
  isNaN v = false /\ num_ge v (num 0) = true /\ num_lt v (num 0) = false.
Proof.
  intros H. apply parseNptTime_nonNegative, num_ge_zero in H.
  destruct (num_ge_not_nan v (num 0) H) as [Nv _].
  repeat split; try assumption.
  rewrite (num_ge_negb_lt v (num 0) Nv eq_refl) in H.
  destruct (num_lt v (num 0)); [discriminate H|reflexivity].
Qed.

Lemma parseNptTime_never_negative_witness :
  isNaN (num 3750) = false /\ num_ge (num 3750) (num 0) = true
  /\ num_lt (num 3750) (num 0) = false.
Proof.
  refine (parseNptTime_never_negative (js " 1:02:30 ") (num 3750) _).
  vm_compute. reflexivity.
Defined.

(** X2: white space around a time string does not change what
    [parseNptTime] gives, and a string of white space only, the empty string
    included, is rejected. *)
Theorem parseNptTime_ignores_padding (w1 s w2 : jsstring) :
  blank w1 -> blank w2 ->
  parseNptTime (w1 ++ s ++ w2) = parseNptTime s
  /\ parseNptTime (trim s) = parseNptTime s
  /\ parseNptTime w1 = None.
Proof.
  intros B1 B2. unfold parseNptTime.
  rewrite trim_pad by assumption. rewrite trim_idempotent.
  rewrite (trim_blank w1 B1). repeat split; reflexivity.
Qed.

Lemma parseNptTime_ignores_padding_witness :
  parseNptTime (js "  02:30 ") = parseNptTime (js "02:30")
  /\ parseNptTime (trim (js "02:30")) = parseNptTime (js "02:30")
  /\ parseNptTime (js "  ") = None.
Proof.
  refine (parseNptTime_ignores_padding (js "  ") (js "02:30") (js " ") _ _);
    repeat constructor.
Defined.



(** X4: a time string with three or more colons, that is four or more
    groups, is rejected whatever the groups are. *)
Theorem too_many_groups (s : jsstring) :
  3 <= count_occ N.eq_dec s (ch ":") -> parseNptTime s = None.
Proof.
  intros H. rewrite <- (count_occ_trim s (ch ":") eq_refl) in H.
  unfold parseNptTime.
  destruct (truthy (trim s)); cbn [negb]; [|reflexivity].
  destruct (nptSecTest (trim s)) eqn:T.
  - apply nptSecTest_no_colon in T.
    apply (count_occ_not_In N.eq_dec) in T. lia.
  - pose proof (split_length (ch ":") (trim s)) as L.
    destruct (length (split (trim s) (ch ":"))) as [|[|[|[|n]]]];
      try lia; reflexivity.
Qed.

Lemma too_many_groups_witness : parseNptTime (js "1:02:03:04") = None.
Proof.
  refine (too_many_groups (js "1:02:03:04") _). vm_compute. lia.
Defined.

(** X5: an hours group that reads as zero adds nothing: with the minutes
    written in digits, [0:MM:SS] is accepted exactly when [MM:SS] is, with
    the same value. *)
Theorem zero_hours (hh ss : jsstring) (d : N) (ds : jsstring) :
  parseFloat hh = num 0 ->
  digits (d :: ds) ->
  ~ In (ch ":") hh -> ~ In (ch ":") ss ->
  trim (hh ++ js ":" ++ (d :: ds) ++ js ":" ++ ss)
    = hh ++ js ":" ++ (d :: ds) ++ js ":" ++ ss ->
  trim ((d :: ds) ++ js ":" ++ ss) = (d :: ds) ++ js ":" ++ ss ->
  parseNptTime (hh ++ js ":" ++ (d :: ds) ++ js ":" ++ ss)
  = parseNptTime ((d :: ds) ++ js ":" ++ ss).
Proof.
  change (js ":") with [ch ":"]. cbn [app].
  change (d :: ds ++ ch ":" :: ss) with ((d :: ds) ++ ch ":" :: ss).
  intros Z D Ch Cs T3 T2.
  pose proof (digits_no_colon _ D) as Cm.
  rewrite (parseNptTime_three hh (d :: ds) ss Ch Cm Cs T3).
  rewrite (parseNptTime_two (d :: ds) ss Cm Cs T2). cbv zeta. rewrite Z.
  change (isNaN (num 0)) with false.
  change (num_lt (num 0) (num 0)) with false.
  change (num_mul (num 0) (num 3600)) with (S754_zero false).
  rewrite add_zero_left.
  - cbn [orb].
    destruct (isNaN (parseFloat (d :: ds))), (isNaN (parseFloat ss)),
      (num_lt (parseFloat (d :: ds)) (num 0)), (num_lt (parseFloat ss) (num 0)),
      (num_ge (parseFloat (d :: ds)) (num 60)), (num_ge (parseFloat ss) (num 60));
      reflexivity.
  - apply times_60_sign. rewrite parseFloat_integer by exact D.
    apply decimalToNumber_sign.
Qed.

Lemma zero_hours_witness :
  parseNptTime (js "00:02:30.5") = parseNptTime (js "02:30.5").
Proof.
  refine (zero_hours (js "00") (js "30.5") (ch "0") (js "2") _ _ _ _ _ _).
  - reflexivity.
  - repeat constructor.
  - notin.
  - notin.
  - reflexivity.
  - reflexivity.
Defined.

(** ** More on [parseMediaFragment] *)

(** What one comma-separated part says about a bound: no bound when the part
    is blank ([Some None]), the parsed time when it parses, and a failure
    ([None]) otherwise. *)
Definition boundOf (part : jsstring) : option (option Number) :=
  if truthy (trim part) then option_map Some (parseNptTime part)
  else Some None.

(** The three rejections of lines 84 to 99 applied to a window. *)
Definition checked (tf : TemporalFragment) : MediaFragmentParseResult :=
  if boundsInverted tf || endsAtOrigin tf || noBounds tf then absent
  else {| temporalFragment := Some tf |}.

Section WindowFacts.

Lemma validation_checked (tf : TemporalFragment) :
  (returnIf (boundsInverted tf) absent ;;;
   returnIf (endsAtOrigin tf) absent ;;;
   returnIf (noBounds tf) absent ;;;
   Return {| temporalFragment := Some tf |})
  = (Return (checked tf) : Completion MediaFragmentParseResult Empty_set).
Proof.
  unfold checked, returnIf.
  destruct (boundsInverted tf), (endsAtOrigin tf), (noBounds tf); reflexivity.
Qed.

(** The statement that sets a bound, for a part that is not blank: the test
    [>= 0] always holds. *)
Lemma parsed_bound_kept (p : jsstring) (x : Number) :
  parseNptTime p = Some x -> num_ge x (num 0) = true.
Proof. intros H. apply num_ge_zero, (parseNptTime_nonNegative p). exact H. Qed.

Lemma parseNptTime_trim (p : jsstring) :
  parseNptTime (trim p) = parseNptTime p.
Proof. unfold parseNptTime. rewrite trim_idempotent. reflexivity. Qed.

Lemma parseNptTime_blank (p : jsstring) :
  truthy (trim p) = false -> parseNptTime p = None.
Proof. intros H. unfold parseNptTime. rewrite H. reflexivity. Qed.

Lemma in_substring (c : N) (s : jsstring) (n : Z) :
  In c (substring s n) -> In c s.
Proof.
  unfold substring. intros H.
  rewrite <- (firstn_skipn (Z.to_nat (Z.max 0 n)) s).
  apply in_or_app. right. exact H.
Qed.

Lemma in_cleanValue (c : N) (v : jsstring) :
  In c (cleanValueOf v) -> In c v.
Proof.
  unfold cleanValueOf. destruct (startsWith v (js "npt:")); [|auto].
  apply in_substring.
Qed.

(** The parts of lines 44 to 83 for a value with one part. *)
Lemma one_part (v a : jsstring) :
  split (cleanValueOf v) (ch ",") = [a] ->
  parseTemporalMatch v
  = Return (match parseNptTime a with
            | Some x => {| temporalFragment :=
                             Some {| start := Some x; end_ := None |} |}
            | None => absent
            end).
Proof.
  intros S. unfold parseTemporalMatch.
  change (if startsWith v (js "npt:") then substring v 4 else v)
    with (cleanValueOf v).
  rewrite S. cbn [length Nat.eqb index nth_error callTrim bind].
  rewrite parseNptTime_trim.
  destruct (truthy (trim a)) eqn:T.
  - destruct (parseNptTime a) as [x|] eqn:P; [|reflexivity].
    rewrite (parsed_bound_kept a x P). reflexivity.
  - rewrite (parseNptTime_blank a T). reflexivity.
Qed.

(** The parts of lines 44 to 83 for a value with two parts. *)
Lemma two_parts (v a b : jsstring) :
  split (cleanValueOf v) (ch ",") = [a; b] ->
  parseTemporalMatch v
  = Return (match boundOf a, boundOf b with
            | Some s, Some e => checked {| start := s; end_ := e |}
            | _, _ => absent
            end).
Proof.
  intros S. unfold parseTemporalMatch.
  change (if startsWith v (js "npt:") then substring v 4 else v)
    with (cleanValueOf v).
  rewrite S. cbn [length Nat.eqb index nth_error callTrim bind].
  rewrite !parseNptTime_trim. unfold boundOf.
  destruct (truthy (trim a)), (truthy (trim b));
    try (destruct (parseNptTime a) as [x|] eqn:Pa;
         [rewrite (parsed_bound_kept a x Pa)|]);
    try (destruct (parseNptTime b) as [y|] eqn:Pb;
         [rewrite (parsed_bound_kept b y Pb)|]);
    cbn [bind option_map]; try reflexivity;
    unfold setStart, setEnd, emptyFragment; cbn [start end_];
    apply validation_checked.
Qed.

Lemma startsWith_app_true (a rest p : jsstring) :
  startsWith a p = true -> startsWith (a ++ rest) p = true.
Proof.
  revert a. induction p as [|d p IH]; intros a H;
    [destruct a, rest; reflexivity|].
  destruct a as [|c a]; [discriminate H|].
  cbn [app startsWith] in *. apply andb_prop in H as [E H].
  rewrite E, (IH a H). reflexivity.
Qed.

(** A comma after the value stays after the cleaned value. *)
Lemma clean_trailing_comma (v : jsstring) :
  cleanValueOf (v ++ [ch ","]) = cleanValueOf v ++ [ch ","].
Proof.
  unfold cleanValueOf. destruct (startsWith v (js "npt:")) eqn:E.
  - rewrite (startsWith_app_true v [ch ","] (js "npt:") E).
    revert E. change (js "npt:") with [ch "n"; ch "p"; ch "t"; ch ":"].
    destruct v as [|c1 [|c2 [|c3 [|c4 v]]]]; cbn [startsWith];
      rewrite ?andb_false_r; try discriminate. reflexivity.
  - rewrite startsWith_app_false; [reflexivity|exact E|notin].
Qed.

Lemma nonNegative_not_zero (e : Number) :
  nonNegative e -> num_eq e (num 0) = false -> num_lt (num 0) e = true.
Proof.
  change (num 0) with (S754_zero false).
  destruct e as [s|s| |s m x]; cbn [nonNegative]; intros H; try contradiction;
    subst; cbn; intros Z; try reflexivity; discriminate Z.
Qed.

End WindowFacts.

(** X6: the bounds of a returned window are numbers that are not NaN and
    not negative, and a returned end is strictly positive, with or without a
    start. *)
Theorem returned_bounds (url : jsstring) (tf : TemporalFragment) :
  parseMediaFragment url = Returns {| temporalFragment := Some tf |} ->
  (forall s, start tf = Some s -> isNaN s = false /\ num_ge s (num 0) = true)
  /\ (forall e, end_ tf = Some e -> num_lt (num 0) e = true).
Proof.
  intros H.
  destruct (parseMediaFragment_cases url) as [E|(tf' & E & W)];
    rewrite E in H; [discriminate H|].
  injection H as <-. destruct W as (Ws & We & Wi & Wo & _).
  split.
  - intros s Hs. specialize (Ws s Hs). split; [|exact Ws].
    apply (num_ge_not_nan s (num 0) Ws).
  - intros e He. specialize (We e He).
    unfold boundsInverted, endsAtOrigin in *. rewrite He in *.
    destruct (start tf') as [s|].
    + specialize (Ws s eq_refl).
      destruct (num_ge_not_nan s (num 0) Ws) as [Ns _].
      destruct (num_ge_not_nan e (num 0) We) as [Ne _].
      rewrite (num_ge_negb_lt s e Ns Ne) in Wi.
      apply (above_nonNegative s e); [apply num_ge_zero; exact Ws|].
      destruct (num_lt s e); [reflexivity|discriminate Wi].
    + apply nonNegative_not_zero; [apply num_ge_zero; exact We|exact Wo].
Qed.

Lemma returned_bounds_witness : num_lt (num 0) (num 20) = true.
Proof.
  refine (proj2 (returned_bounds (js "http://example.com/video.m3u8#t=,20")
     {| start := None; end_ := Some (num 20) |} _) _ eq_refl).
  vm_compute. reflexivity.
Defined.

(** X7: when the value of the selected [t=] parameter has no comma, the
    result is the window that starts at the time value of the value, after
    the removal of the [npt:] prefix, and has no end; it is absent exactly
    when that time value does not parse. *)
Theorem start_only_value (pre body v : jsstring) :
  ~ In (ch "#") pre ->
  selects body v ->
  ~ In (ch ",") v ->
  parseMediaFragment (pre ++ ch "#" :: body)
  = Returns (match parseNptTime (cleanValueOf v) with
             | Some x => {| temporalFragment :=
                              Some {| start := Some x; end_ := None |} |}
             | None => absent
             end).
Proof.
  intros H S C. rewrite (parse_selected pre body v H S).
  destruct v as [|c v]; [reflexivity|].
  rewrite (one_part (c :: v) (cleanValueOf (c :: v))); [reflexivity|].
  apply split_none. intros Hin. apply C, in_cleanValue, Hin.
Qed.

Lemma start_only_value_witness :
  parseMediaFragment (js "http://example.com/video.m3u8#t=5,9&x=1&t=npt:1:30")
  = Returns {| temporalFragment :=
      Some {| start := Some (num 90); end_ := None |} |}.
Proof.
  refine (start_only_value (js "http://example.com/video.m3u8")
            (js "t=5,9&x=1&t=npt:1:30") (js "npt:1:30") _ _ _).
  - notin.
  - exists [js "t=5,9"; js "x=1"], []. split; [reflexivity|intros p []].
  - notin.
Defined.

(** X8: when the value of the selected [t=] parameter has two parts, each
    blank part gives no bound and each other part gives its time value
    unchanged; the result is absent when a part that is not blank does not
    parse, and otherwise the window of the two bounds, unless one of the
    three rejections applies to it. *)
Theorem pair_value (pre body v a b : jsstring) :
  ~ In (ch "#") pre ->
  selects body v ->
  split (cleanValueOf v) (ch ",") = [a; b] ->
  parseMediaFragment (pre ++ ch "#" :: body)
  = Returns (match boundOf a, boundOf b with
             | Some s, Some e => checked {| start := s; end_ := e |}
             | _, _ => absent
             end).
Proof.
  intros H S P. rewrite (parse_selected pre body v H S).
  destruct v as [|c v]; [discriminate P|].
  rewrite (two_parts (c :: v) a b P). reflexivity.
Qed.

Lemma pair_value_witness :
  parseMediaFragment (js "http://example.com/video.m3u8#t=npt: ,0:20")
  = Returns {| temporalFragment :=
      Some {| start := None; end_ := Some (num 20) |} |}.
Proof.
  refine (pair_value (js "http://example.com/video.m3u8")
            (js "t=npt: ,0:20") (js "npt: ,0:20") (js " ") (js "0:20") _ _ _).
  - notin.
  - exists [], []. split; [reflexivity|intros p []].
  - reflexivity.
Defined.

(** X9: a comma at the end of a value that has no other comma changes
    nothing: [t=a,] gives what [t=a] gives. *)
Theorem trailing_comma (pre v : jsstring) :
  ~ In (ch "#") pre ->
  ~ In (ch "&") v ->
  ~ In (ch ",") v ->
  parseMediaFragment (pre ++ js "#t=" ++ v ++ js ",")
  = parseMediaFragment (pre ++ js "#t=" ++ v).
Proof.
  intros H A C. change (js ",") with [ch ","].
  assert (A' : ~ In (ch "&") (v ++ [ch ","])).
  { intros Hin. apply in_app_or in Hin as [Hin|[E|[]]]; [auto|discriminate E]. }
  assert (Cc : ~ In (ch ",") (cleanValueOf v))
    by (intros Hin; apply C, in_cleanValue, Hin).
  rewrite !parse_value by assumption. f_equal.
  rewrite (one_part v (cleanValueOf v)) by (apply split_none; exact Cc).
  rewrite (two_parts (v ++ [ch ","]) (cleanValueOf v) []).
  - unfold boundOf. change (truthy (trim [])) with false.
    destruct (truthy (trim (cleanValueOf v))) eqn:T.
    + destruct (parseNptTime (cleanValueOf v)); reflexivity.
    + rewrite (parseNptTime_blank _ T). reflexivity.
  - rewrite clean_trailing_comma. rewrite split_app by exact Cc. reflexivity.
Qed.

Lemma trailing_comma_witness :
  parseMediaFragment (js "http://example.com/video.m3u8#t=npt:10,")
  = parseMediaFragment (js "http://example.com/video.m3u8#t=npt:10").
Proof.
  refine (trailing_comma (js "http://example.com/video.m3u8") (js "npt:10") _ _ _);
    notin.
Defined.

(** X10: when the last [t=] parameter of the fragment has an empty value or
    a value of white space only, the result is absent, whatever the earlier
    [t=] parameters are. *)
Theorem blank_last_value (pre body w : jsstring) :
  ~ In (ch "#") pre ->
  selects body w ->
  blank w ->
  parseMediaFragment (pre ++ ch "#" :: body) = Returns absent.
Proof.
  intros H S B. rewrite (parse_selected pre body w H S).
  destruct w as [|c w]; [reflexivity|].
  assert (E : cleanValueOf (c :: w) = c :: w).
  { pose proof (clean_padded (c :: w) [] [] [] B (Forall_nil _) eq_refl
                  (or_introl eq_refl)) as E.
    rewrite !app_nil_r in E. exact E. }
  rewrite (one_part (c :: w) (c :: w)).
  - rewrite parseNptTime_blank; [reflexivity|].
    rewrite (trim_blank (c :: w) B). reflexivity.
  - rewrite E. apply split_none. apply blank_not_in; [reflexivity|exact B].
Qed.

Lemma blank_last_value_witness :
  parseMediaFragment (js "http://example.com/video.m3u8#t=10,20&t=")
  = Returns absent.
Proof.
  refine (blank_last_value (js "http://example.com/video.m3u8")
            (js "t=10,20&t=") [] _ _ _).
  - notin.
  - exists [js "t=10,20"], []. split; [reflexivity|intros p []].
  - constructor.
Defined.

(** ** Parameters around the temporal one *)

Section Composition.

(** Two bodies joined by an ampersand have the parameters of both. *)
Lemma split_join (a b : jsstring) (sep : N) :
  split (a ++ sep :: b) sep = split a sep ++ split b sep.
Proof.
  induction a as [|c a IH]; cbn [app].
  - rewrite split_cons_sep. reflexivity.
  - destruct (N.eq_dec c sep) as [->|Hc].
    + rewrite !split_cons_sep, IH. reflexivity.
    + rewrite !split_cons_other by exact Hc. rewrite IH.
      destruct (split a sep) as [|p ps] eqn:E;
        [exfalso; exact (split_not_nil sep a E)|reflexivity].
Qed.

Lemma no_temporal_lastValue (body : jsstring) (acc : option jsstring) :
  (forall p, In p (split body (ch "&")) -> startsWith p (js "t=") = false) ->
  lastValue (split body (ch "&")) acc = acc.
Proof.
  intros H. apply lastValue_none. intros p Hp.
  apply paramValue_startsWith, H, Hp.
Qed.

End Composition.

(** X11: parameters that are not of the form [t=...] change nothing,
    wherever they stand: a run of such parameters before or after the rest
    of the fragment body leaves the result as it is. *)
Theorem other_parameters_ignored (pre body others : jsstring) :
  ~ In (ch "#") pre ->
  (forall p, In p (split others (ch "&")) -> startsWith p (js "t=") = false) ->
  parseMediaFragment (pre ++ js "#" ++ body ++ js "&" ++ others)
    = parseMediaFragment (pre ++ js "#" ++ body)
  /\ parseMediaFragment (pre ++ js "#" ++ others ++ js "&" ++ body)
     = parseMediaFragment (pre ++ js "#" ++ body).
Proof.
  intros H O. change (js "#") with [ch "#"]. change (js "&") with [ch "&"].
  cbn [app]. unfold parseMediaFragment.
  rewrite !parse_fragment_body by exact H.
  rewrite !split_join, !lastValue_app.
  rewrite (no_temporal_lastValue others _ O).
  rewrite (no_temporal_lastValue others None O). split; reflexivity.
Qed.

Lemma other_parameters_ignored_witness :
  parseMediaFragment (js "http://example.com/video.m3u8#t=10,20&track=video&id=main")
    = parseMediaFragment (js "http://example.com/video.m3u8#t=10,20")
  /\ parseMediaFragment (js "http://example.com/video.m3u8#track=video&id=main&t=10,20")
     = parseMediaFragment (js "http://example.com/video.m3u8#t=10,20").
Proof.
  refine (other_parameters_ignored (js "http://example.com/video.m3u8")
            (js "t=10,20") (js "track=video&id=main") _ _).
  - notin.
  - each_part.
Defined.

(** X12: the [npt:] prefix is optional: before a value that does not itself
    start with [npt:] it changes nothing, the prefix being removed once
    only. *)
Theorem npt_prefix_optional (pre v : jsstring) :
  ~ In (ch "#") pre ->
  ~ In (ch "&") v ->
  startsWith v (js "npt:") = false ->
  parseMediaFragment (pre ++ js "#t=" ++ js "npt:" ++ v)
  = parseMediaFragment (pre ++ js "#t=" ++ v).
Proof.
  intros H A N.
  assert (A' : ~ In (ch "&") (js "npt:" ++ v)).
  { intros Hin. apply in_app_or in Hin as [Hin|Hin]; [|auto].
    revert Hin. notin. }
  rewrite !parse_value by assumption. f_equal.
  apply trimmed_parts_determine. rewrite clean_npt.
  unfold cleanValueOf. rewrite N. reflexivity.
Qed.

Lemma npt_prefix_optional_witness :
  parseMediaFragment (js "http://example.com/video.m3u8#t=npt:0:02:00,210")
  = parseMediaFragment (js "http://example.com/video.m3u8#t=0:02:00,210").
Proof.
  refine (npt_prefix_optional (js "http://example.com/video.m3u8")
            (js "0:02:00,210") _ _ _).
  - notin.
  - notin.
  - reflexivity.
Defined.
